(** * zstd-runtime-reader: the [ZstPackage] helper over the wasm [ZstdReader]

    A shallow embedding of [zstd-pack.ts] (the TypeScript helper of the
    repository) and of the platform objects it drives, followed by the
    properties of the package reader.

    Conventions of the embedding.
    - A JavaScript string is a Rocq [string] holding the UTF-8 bytes of its
      text; [Uint8Array] contents are [list byte].
    - A [Uint8Array] / [ArrayBuffer] object is a location of the [heap] of the
      [World]; a typed-array view over an [ArrayBuffer] shares its location.
    - A method that may throw returns a [Result]; a method with effects is a
      function [S -> Result A * S] ([Js S A]), the state reached when the
      exception is raised being kept.  A promise is identified with the
      outcome it settles to.                                                  *)

From Stdlib Require Import NArith Lia Strings.Ascii Strings.String Strings.Byte.
From stdpp Require Import base option list gmap strings pretty.

Local Open Scope N_scope.
Local Open Scope stdpp_scope.

Abbreviation bytes := (list byte).

Global Instance byte_eq_dec : EqDecision byte := Byte.byte_eq_dec.

(* ========================================================================= *)
(** * Exceptions and the state-and-exception monad                            *)
(* ========================================================================= *)

(** The causes for which the reader refuses an archive at open time. *)
Inductive OpenCause :=
| MagicMismatch
| UnsupportedVersion
| Truncated
| OutOfBounds
| OverlappingRanges
| DuplicatePath.

(** The error kinds raised inside the reader engine. *)
Inductive ErrorKind :=
| OpenError (cause : OpenCause)
| PathNotFound
| DecodeError
| IntegrityError
| ClosedError.

(** Values that can be thrown: [Error msg] is [new Error(msg)] as the helper
    raises it, [SyntaxError] comes from [JSON.parse], [TypeError] from the
    platform, [EngineError] from inside the wasm reader. *)
Inductive JsError :=
| Error (msg : string)
| SyntaxError (msg : string)
| TypeError (msg : string)
| EngineError (kind : ErrorKind).

Inductive Result (A : Type) :=
| Ok (a : A)
| Throw (e : JsError).
Arguments Ok {A} a.
Arguments Throw {A} e.

Definition Js (S A : Type) : Type := S → Result A * S.

Global Instance Js_ret {S} : MRet (Js S) := λ A a s, (Ok a, s).

Global Instance Js_bind {S} : MBind (Js S) := λ A B k m s,
  match m s with
  | (Ok a, s') => k a s'
  | (Throw e, s') => (Throw e, s')
  end.

Definition throw {S A} (e : JsError) : Js S A := λ s, (Throw e, s).

Definition lift {S A} (r : Result A) : Js S A := λ s, (r, s).

Definition gets {S A} (f : S → A) : Js S A := λ s, (Ok (f s), s).

Definition modify {S} (f : S → S) : Js S unit := λ s, (Ok tt, f s).

Global Instance Result_fmap : FMap Result := λ A B f r,
  match r with
  | Ok a => Ok (f a)
  | Throw e => Throw e
  end.

(* ========================================================================= *)
(** * Strings                                                                *)
(* ========================================================================= *)

Definition ascii_eqb (a b : ascii) : bool := Ascii.eqb a b.

(** [String.prototype.split] for a one-character separator. *)
Fixpoint split (sep : ascii) (s : string) : list string :=
  match s with
  | EmptyString => [EmptyString]
  | String c r =>
      if ascii_eqb c sep then EmptyString :: split sep r
      else match split sep r with
           | h :: t => String c h :: t
           | [] => [String c EmptyString]
           end
  end.

(** [Array.prototype.pop]: the last element, [undefined] on the empty array. *)
Definition pop {A} (l : list A) : option A := last l.

(** [String.prototype.toLowerCase], exact on ASCII text: the letters A-Z are
    lowered and every other character is left as it is.  Outside ASCII the
    platform function lowers letters as well (U+212A to k, U+0130 to i
    followed by U+0307, a capital sigma by its context); a segment that
    holds such a letter is lowered differently here.  The lookup that
    [mimeFromPath] makes with the result is not affected: a lowered segment
    that is not ASCII is no key of the table nor of what the table inherits,
    and of the two letters that lower into ASCII one gives k, which occurs
    in no key written in lowercase, the other i followed by a combining
    mark. *)
Definition lower_ascii (c : ascii) : ascii :=
  let n := N_of_ascii c in
  if (65 <=? n) && (n <=? 90) then ascii_of_N (n + 32) else c.

Fixpoint toLowerCase (s : string) : string :=
  match s with
  | EmptyString => EmptyString
  | String c r => String (lower_ascii c) (toLowerCase r)
  end.

(* ========================================================================= *)
(** * Object property lookup and the MIME table                               *)
(* ========================================================================= *)

(** The values a property read on [MIME_BY_EXT] can produce. *)
Inductive JsValue :=
| JsUndefined
| JsString (s : string)
| JsObjectPrototype
| JsNativeFunction (name : string).

(** The properties every object literal inherits from [Object.prototype]. *)
Definition Object_prototype_functions : list string :=
  [ "hasOwnProperty"; "isPrototypeOf"; "propertyIsEnumerable";
    "toLocaleString"; "toString"; "valueOf";
    "__defineGetter__"; "__defineSetter__";
    "__lookupGetter__"; "__lookupSetter__" ].

Definition Object_prototype_get (key : string) : JsValue :=
  if decide (key = "constructor") then JsNativeFunction "Object"
  else if decide (key = "__proto__") then JsObjectPrototype
  else if decide (key ∈ Object_prototype_functions) then JsNativeFunction key
  else JsUndefined.

(** [obj[key]] on an object literal with the own properties [own]: the own
    property when there is one, the inherited one otherwise. *)
Definition object_get (own : gmap string string) (key : string) : JsValue :=
  match own !! key with
  | Some v => JsString v
  | None => Object_prototype_get key
  end.

(** [v ?? d] *)
Definition nullish (v d : JsValue) : JsValue :=
  match v with JsUndefined => d | _ => v end.

(** [ToString], as applied to the [type] member of the Blob options. *)
Definition ToString (v : JsValue) : string :=
  match v with
  | JsUndefined => "undefined"
  | JsString s => s
  | JsObjectPrototype => "[object Object]"
  | JsNativeFunction name => "function " +:+ name +:+ "() { [native code] }"
  end.

Definition MIME_BY_EXT : gmap string string :=
  <["webp" := "image/webp"]>
  (<["ogg" := "audio/ogg"]>
  (<["gltf" := "model/gltf+json"]>
  (<["bin" := "application/octet-stream"]> ∅))).

Definition mimeFromPath (path : string) : JsValue :=
  let ext := match pop (split "." path) with
             | Some seg => toLowerCase seg
             | None => EmptyString
             end in
  nullish (object_get MIME_BY_EXT ext) (JsString "application/octet-stream").

(* ========================================================================= *)
(** * Platform objects: Blob, the heap of buffers, object URLs, fetch         *)
(* ========================================================================= *)

Definition printable (c : ascii) : bool :=
  let n := N_of_ascii c in (32 <=? n) && (n <=? 126).

Fixpoint all_printable (s : string) : bool :=
  match s with
  | EmptyString => true
  | String c r => printable c && all_printable r
  end.

(** The [type] of a Blob: the option converted to a string, emptied when it
    holds a character outside U+0020..U+007E, lowercased otherwise. *)
Definition normalize_type (t : string) : string :=
  if all_printable t then toLowerCase t else EmptyString.

Record Blob := {
  blob_bytes : bytes;
  blob_type : string;
}.

(** [new Blob([part], { type })]: the part is copied into the blob. *)
Definition new_Blob (part : bytes) (type : JsValue) : Blob :=
  {| blob_bytes := part; blob_type := normalize_type (ToString type) |}.

Record World := {
  (** the module-level singleton [let wasmInit: Promise<void> | null] *)
  wasmInit : option (Result unit);
  (** contents of the live [ArrayBuffer] / [Uint8Array] objects *)
  heap : gmap nat bytes;
  (** the blob URL store behind [URL.createObjectURL] *)
  objectURLs : gmap string Blob;
  (** number of object URLs created so far *)
  urlsCreated : nat;
  (** what [fetch] answers: status and body per URL *)
  network : gmap string (nat * bytes);
}.

Definition set_wasmInit (v : option (Result unit)) (w : World) : World :=
  {| wasmInit := v; heap := heap w; objectURLs := objectURLs w;
     urlsCreated := urlsCreated w; network := network w |}.

Definition set_heap (h : gmap nat bytes) (w : World) : World :=
  {| wasmInit := wasmInit w; heap := h; objectURLs := objectURLs w;
     urlsCreated := urlsCreated w; network := network w |}.

Definition set_objectURLs (u : gmap string Blob) (n : nat) (w : World) : World :=
  {| wasmInit := wasmInit w; heap := heap w; objectURLs := u;
     urlsCreated := n; network := network w |}.

(** A new [Uint8Array] holding [bs]: a location no live buffer has. *)
Definition alloc (bs : bytes) : Js World nat := λ w,
  let l := fresh (dom (heap w)) in
  (Ok l, set_heap (<[l := bs]> (heap w)) w).

(** Reading the bytes of a buffer.  A location with no buffer behind it is
    not a value a caller can hold; it is answered with a [TypeError]. *)
Definition read_buffer (l : nat) : Js World bytes := λ w,
  match heap w !! l with
  | Some bs => (Ok bs, w)
  | None => (Throw (TypeError "not a buffer"), w)
  end.

(** A write of the caller into one of its buffers. *)
Definition write_buffer (l : nat) (bs : bytes) (w : World) : World :=
  match heap w !! l with
  | Some _ => set_heap (<[l := bs]> (heap w)) w
  | None => w
  end.

(** [URL.createObjectURL(blob)]: a URL never handed out before. *)
Definition createObjectURL (b : Blob) : Js World string := λ w,
  let url := "blob:" +:+ pretty (urlsCreated w) in
  (Ok url, set_objectURLs (<[url := b]> (objectURLs w)) (S (urlsCreated w)) w).

(** [URL.revokeObjectURL(url)] *)
Definition revokeObjectURL (url : string) (w : World) : World :=
  set_objectURLs (delete url (objectURLs w)) (urlsCreated w) w.

(** [fetch(url)]: the response, or a rejection when the network fails. *)
Definition fetch (url : string) : Js World (nat * bytes) := λ w,
  match network w !! url with
  | Some resp => (Ok resp, w)
  | None => (Throw (TypeError "Failed to fetch"), w)
  end.

(** [resp.ok] *)
Definition response_ok (status : nat) : bool :=
  (200 <=? status)%nat && (status <=? 299)%nat.

(* ========================================================================= *)
(** * TextDecoder                                                            *)
(* ========================================================================= *)

Definition in_range (lo hi : N) (b : byte) : bool :=
  (lo <=? Byte.to_N b) && (Byte.to_N b <=? hi).

Definition ch (b : byte) : ascii := ascii_of_byte b.

(** U+FFFD in UTF-8 *)
Definition REPLACEMENT : string :=
  String (ch xef) (String (ch xbf) (String (ch xbd) EmptyString)).

(** The UTF-8 decoder of the Encoding standard in its default, non-fatal
    mode: a well-formed sequence is kept, every maximal ill-formed
    subsequence becomes U+FFFD and decoding resumes at the offending byte. *)
Fixpoint utf8_decode (bs : bytes) : string :=
  match bs with
  | [] => EmptyString
  | b0 :: r =>
    if in_range 0x00 0x7F b0 then String (ch b0) (utf8_decode r)
    else if in_range 0xC2 0xDF b0 then
      match r with
      | b1 :: r1 =>
        if in_range 0x80 0xBF b1
        then String (ch b0) (String (ch b1) (utf8_decode r1))
        else REPLACEMENT +:+ utf8_decode r
      | [] => REPLACEMENT
      end
    else if in_range 0xE0 0xEF b0 then
      let lo := if in_range 0xE0 0xE0 b0 then 0xA0 else 0x80 in
      let hi := if in_range 0xED 0xED b0 then 0x9F else 0xBF in
      match r with
      | b1 :: r1 =>
        if in_range lo hi b1 then
          match r1 with
          | b2 :: r2 =>
            if in_range 0x80 0xBF b2
            then String (ch b0) (String (ch b1) (String (ch b2) (utf8_decode r2)))
            else REPLACEMENT +:+ utf8_decode r1
          | [] => REPLACEMENT
          end
        else REPLACEMENT +:+ utf8_decode r
      | [] => REPLACEMENT
      end
    else if in_range 0xF0 0xF4 b0 then
      let lo := if in_range 0xF0 0xF0 b0 then 0x90 else 0x80 in
      let hi := if in_range 0xF4 0xF4 b0 then 0x8F else 0xBF in
      match r with
      | b1 :: r1 =>
        if in_range lo hi b1 then
          match r1 with
          | b2 :: r2 =>
            if in_range 0x80 0xBF b2 then
              match r2 with
              | b3 :: r3 =>
                if in_range 0x80 0xBF b3
                then String (ch b0) (String (ch b1) (String (ch b2)
                       (String (ch b3) (utf8_decode r3))))
                else REPLACEMENT +:+ utf8_decode r2
              | [] => REPLACEMENT
              end
            else REPLACEMENT +:+ utf8_decode r1
          | [] => REPLACEMENT
          end
        else REPLACEMENT +:+ utf8_decode r
      | [] => REPLACEMENT
      end
    else REPLACEMENT +:+ utf8_decode r
  end.

(** A leading byte order mark is not part of the decoded text. *)
Definition strip_bom (bs : bytes) : bytes :=
  match bs with
  | b0 :: b1 :: b2 :: r =>
      if in_range 0xEF 0xEF b0 && in_range 0xBB 0xBB b1 && in_range 0xBF 0xBF b2
      then r else bs
  | _ => bs
  end.

(** [new TextDecoder().decode(bs)] *)
Definition TextDecoder_decode (bs : bytes) : string :=
  utf8_decode (strip_bom bs).

(* ========================================================================= *)
(** * JSON text of a list of strings                                         *)
(* ========================================================================= *)

Definition dquote : ascii := ascii_of_N 34.

Definition is_ws (c : ascii) : bool :=
  let n := N_of_ascii c in
  (n =? 32) || (n =? 9) || (n =? 10) || (n =? 13).

(** The character a one-letter escape stands for. *)
Definition escape_char (c : ascii) : option ascii :=
  if ascii_eqb c dquote then Some dquote
  else if ascii_eqb c "\" then Some "\"%char
  else if ascii_eqb c "/" then Some "/"%char
  else if ascii_eqb c "b" then Some (ascii_of_N 8)
  else if ascii_eqb c "f" then Some (ascii_of_N 12)
  else if ascii_eqb c "n" then Some (ascii_of_N 10)
  else if ascii_eqb c "r" then Some (ascii_of_N 13)
  else if ascii_eqb c "t" then Some (ascii_of_N 9)
  else None.

Definition hex_digit (c : ascii) : option N :=
  let n := N_of_ascii c in
  if (48 <=? n) && (n <=? 57) then Some (n - 48)
  else if (97 <=? n) && (n <=? 102) then Some (n - 87)
  else if (65 <=? n) && (n <=? 70) then Some (n - 55)
  else None.

(** The UTF-8 bytes of the code unit [v] of a [\uXXXX] escape, last byte
    first.  A surrogate that has no partner is kept as the three-byte form
    of its own value. *)
Definition utf8_of_unit_rev (v : N) : list ascii :=
  if v <? 0x80 then [ascii_of_N v]
  else if v <? 0x800 then
    [ascii_of_N (0x80 + v mod 64); ascii_of_N (0xC0 + v / 64)]
  else
    [ascii_of_N (0x80 + v mod 64); ascii_of_N (0x80 + (v / 64) mod 64);
     ascii_of_N (0xE0 + v / 4096)].

Definition is_high_surrogate (v : N) : bool := (0xD800 <=? v) && (v <=? 0xDBFF).

Definition is_low_surrogate (v : N) : bool := (0xDC00 <=? v) && (v <=? 0xDFFF).

(** The four UTF-8 bytes, last first, of the character that the surrogate
    pair [hi], [lo] stands for. *)
Definition utf8_of_pair_rev (hi lo : N) : list ascii :=
  let cp := 0x10000 + (hi - 0xD800) * 1024 + (lo - 0xDC00) in
  [ascii_of_N (0x80 + cp mod 64); ascii_of_N (0x80 + (cp / 64) mod 64);
   ascii_of_N (0x80 + (cp / 4096) mod 64); ascii_of_N (0xF0 + cp / 262144)].

Definition string_of_rev (acc : list ascii) : string :=
  string_of_list_ascii (rev acc).

Inductive JState :=
| JStart                                     (* before the opening bracket *)
| JOpen                                      (* after the opening bracket *)
| JComma                                     (* after a comma *)
| JStr (acc : list ascii)                    (* inside a string literal *)
| JEsc (acc : list ascii)                    (* after a backslash *)
| JHex (acc : list ascii) (k : nat) (v : N)  (* in \u, [S k] digits to read *)
| JHigh (acc : list ascii) (hi : N)          (* after the escape of a high
                                                surrogate [hi] *)
| JHighEsc (acc : list ascii) (hi : N)       (* and after a backslash *)
| JHighHex (acc : list ascii) (hi : N) (k : nat) (v : N)
                                             (* and in the \u that follows *)
| JAfter                                     (* after a string literal *)
| JEnd.                                      (* after the closing bracket *)

(** The state after the code unit [v] of a [\uXXXX] escape: a high surrogate
    waits for its partner, any other unit is written out. *)
Definition after_unit (acc : list ascii) (v : N) : JState :=
  if is_high_surrogate v then JHigh acc v
  else JStr (utf8_of_unit_rev v ++ acc).

(** One pass over the text; [acc] holds the characters of the literal being
    read, last first, and [done] the strings read so far, last first.  A
    high surrogate joins the low surrogate whose escape follows it directly
    into one character; followed by anything else it stays alone and the
    text is read on as inside the literal. *)
Fixpoint JSON_go (st : JState) (done : list string) (s : string)
  : option (list string) :=
  match s with
  | EmptyString => match st with JEnd => Some (rev done) | _ => None end
  | String c r =>
    match st with
    | JStart =>
        if is_ws c then JSON_go JStart done r
        else if ascii_eqb c "[" then JSON_go JOpen done r
        else None
    | JOpen =>
        if is_ws c then JSON_go JOpen done r
        else if ascii_eqb c dquote then JSON_go (JStr []) done r
        else if ascii_eqb c "]" then JSON_go JEnd done r
        else None
    | JComma =>
        if is_ws c then JSON_go JComma done r
        else if ascii_eqb c dquote then JSON_go (JStr []) done r
        else None
    | JStr acc =>
        if ascii_eqb c dquote then JSON_go JAfter (string_of_rev acc :: done) r
        else if ascii_eqb c "\" then JSON_go (JEsc acc) done r
        else if N_of_ascii c <? 32 then None
        else JSON_go (JStr (c :: acc)) done r
    | JEsc acc =>
        match escape_char c with
        | Some d => JSON_go (JStr (d :: acc)) done r
        | None =>
            if ascii_eqb c "u" then JSON_go (JHex acc 3 0) done r else None
        end
    | JHex acc k v =>
        match hex_digit c with
        | None => None
        | Some d =>
            match k with
            | O => JSON_go (after_unit acc (16 * v + d)) done r
            | S k' => JSON_go (JHex acc k' (16 * v + d)) done r
            end
        end
    | JHigh acc hi =>
        let alone := utf8_of_unit_rev hi ++ acc in
        if ascii_eqb c "\" then JSON_go (JHighEsc acc hi) done r
        else if ascii_eqb c dquote
        then JSON_go JAfter (string_of_rev alone :: done) r
        else if N_of_ascii c <? 32 then None
        else JSON_go (JStr (c :: alone)) done r
    | JHighEsc acc hi =>
        let alone := utf8_of_unit_rev hi ++ acc in
        match escape_char c with
        | Some d => JSON_go (JStr (d :: alone)) done r
        | None =>
            if ascii_eqb c "u" then JSON_go (JHighHex acc hi 3 0) done r
            else None
        end
    | JHighHex acc hi k v =>
        match hex_digit c with
        | None => None
        | Some d =>
            match k with
            | O =>
                let lo := 16 * v + d in
                if is_low_surrogate lo
                then JSON_go (JStr (utf8_of_pair_rev hi lo ++ acc)) done r
                else JSON_go (after_unit (utf8_of_unit_rev hi ++ acc) lo) done r
            | S k' => JSON_go (JHighHex acc hi k' (16 * v + d)) done r
            end
        end
    | JAfter =>
        if is_ws c then JSON_go JAfter done r
        else if ascii_eqb c "," then JSON_go JComma done r
        else if ascii_eqb c "]" then JSON_go JEnd done r
        else None
    | JEnd => if is_ws c then JSON_go JEnd done r else None
    end
  end.

(** [JSON.parse(text)] for the texts whose value is an array of strings, the
    shape the declared type [string[]] of [fileIndex] admits.  An ill-formed
    text is answered with the [SyntaxError] that [JSON.parse] throws.  For a
    well-formed text of another shape [JSON.parse] returns its value and the
    constructor stores it in the field declared [string[]]; the embedding,
    typed as the field is declared, has no package for that value and ends
    the construction with the same throw.  No statement below concludes
    anything from a rejected file list: they assume that [open] succeeded,
    or are about the list of the reader engine, which is such an array. *)
Definition JSON_parse (text : string) : Result (list string) :=
  match JSON_go JStart [] text with
  | Some l => Ok l
  | None => Throw (SyntaxError "Unexpected token in JSON")
  end.

Definition hex_char (d : N) : ascii :=
  if d <? 10 then ascii_of_N (48 + d) else ascii_of_N (87 + d).

(** The JSON escape of one character of a string literal. *)
Definition quote_char (c : ascii) : string :=
  let n := N_of_ascii c in
  if ascii_eqb c dquote then String "\" (String dquote EmptyString)
  else if ascii_eqb c "\" then "\\"
  else if n =? 8 then "\b"
  else if n =? 12 then "\f"
  else if n =? 10 then "\n"
  else if n =? 13 then "\r"
  else if n =? 9 then "\t"
  else if n <? 32 then
    "\u00" +:+ String (hex_char (n / 16)) (String (hex_char (n mod 16)) EmptyString)
  else String c EmptyString.

Fixpoint quote_chars (s : string) : string :=
  match s with
  | EmptyString => EmptyString
  | String c r => quote_char c +:+ quote_chars r
  end.

Definition quote (s : string) : string :=
  String dquote (quote_chars s +:+ String dquote EmptyString).

Fixpoint join_quoted (l : list string) : string :=
  match l with
  | [] => EmptyString
  | [s] => quote s
  | s :: rest => quote s +:+ "," +:+ join_quoted rest
  end.

(** [JSON.stringify] of an array of strings. *)
Definition JSON_stringify (l : list string) : string :=
  "[" +:+ join_quoted l +:+ "]".

(* ========================================================================= *)
(** * The wasm reader, as [zstd_streaming_reader.d.ts] declares it            *)
(* ========================================================================= *)

(** The class [ZstdReader] and the default export [initWasm] of the wasm
    glue.  Only their declarations are part of the sources; the helper is
    written against this interface.  A reader object owns wasm memory, so its
    methods return the reader they leave behind; the argument of the
    constructor and the result of [extract_file] cross the boundary by
    copy. *)
Class ZstdEngine := {
  ZstdReader : Type;
  initWasm : option string → Result unit;
  ZstdReader_new : bytes → Result ZstdReader;
  get_file_list : ZstdReader → Result bytes * ZstdReader;
  extract_file : string → ZstdReader → Result bytes * ZstdReader;
  free : ZstdReader → ZstdReader;
}.

(* ========================================================================= *)
(** * [ZstPackage]                                                           *)
(* ========================================================================= *)

Section Package.
Context {engine : ZstdEngine}.

Record ZstPackage := {
  reader : ZstdReader;
  fileIndex : list string;
  urlCache : gmap string string;   (* path -> blob URL *)
}.

Definition set_reader (r : ZstdReader) (pkg : ZstPackage) : ZstPackage :=
  {| reader := r; fileIndex := fileIndex pkg; urlCache := urlCache pkg |}.

Definition set_urlCache (c : gmap string string) (pkg : ZstPackage) : ZstPackage :=
  {| reader := reader pkg; fileIndex := fileIndex pkg; urlCache := c |}.

(** The state a method runs in: the package object and the world around. *)
Definition PkgState : Type := ZstPackage * World.

Definition in_world {A} (m : Js World A) : Js PkgState A := λ s,
  let (r, w') := m (snd s) in (r, (fst s, w')).

(** [initWasm] is run once; every later call awaits the same promise. *)
Definition ensureWasm (wasmURL : option string) : Js World unit := λ w,
  match wasmInit w with
  | Some r => (r, w)
  | None =>
      let arg := match wasmURL with
                 | Some u => if decide (u = EmptyString) then None else Some u
                 | None => None
                 end in
      let r := initWasm arg in
      (r, set_wasmInit (Some r) w)
  end.

(** [private constructor(data: Uint8Array)] *)
Definition new_ZstPackage (data : nat) : Js World ZstPackage :=
  bs ← read_buffer data;
  rd ← lift (ZstdReader_new bs);
  let (res, rd') := get_file_list rd in
  listJSON ← lift res;
  let listStr := TextDecoder_decode listJSON in
  idx ← lift (JSON_parse listStr);
  mret {| reader := rd'; fileIndex := idx; urlCache := ∅ |}.

(** The argument of [open]: [string | ArrayBuffer | Uint8Array]. *)
Inductive Source :=
| SrcString (url : string)
| SrcArrayBuffer (buf : nat)
| SrcUint8Array (arr : nat).

(** [static async open(source, wasmURL?)] *)
Definition open (source : Source) (wasmURL : option string)
  : Js World ZstPackage :=
  ensureWasm wasmURL;;
  data ← match source with
         | SrcString url =>
             resp ← fetch url;
             if response_ok resp.1 then alloc resp.2
             else throw (Error ("Failed to fetch " +:+ url +:+ ": "
                                +:+ pretty resp.1))
         | SrcArrayBuffer buf => mret buf
         | SrcUint8Array arr => mret arr
         end;
  new_ZstPackage data.

(** The bytes a source stands for before [open] runs. *)
Definition source_bytes (source : Source) (w : World) : option bytes :=
  match source with
  | SrcString url => snd <$> network w !! url
  | SrcArrayBuffer buf => heap w !! buf
  | SrcUint8Array arr => heap w !! arr
  end.

(** [list(): readonly string[]] *)
Definition list_ : Js PkgState (list string) :=
  gets (λ s, fileIndex (fst s)).

(** [private assertPath(path)] *)
Definition assertPath (path : string) : Js PkgState unit := λ s,
  if bool_decide (path ∈ fileIndex (fst s)) then (Ok tt, s)
  else (Throw (Error ("Path not found in package: " +:+ path)), s).

(** The exception of [assertPath]. *)
Definition path_not_found (path : string) : JsError :=
  Error ("Path not found in package: " +:+ path).

(** [this.reader.extract_file(path)] *)
Definition reader_extract_file (path : string) : Js PkgState bytes := λ s,
  let (res, rd') := extract_file path (reader (fst s)) in
  (res, (set_reader rd' (fst s), snd s)).

(** [getBytes(path): Uint8Array]: the result is a new array on each call. *)
Definition getBytes (path : string) : Js PkgState nat :=
  assertPath path;;
  bs ← reader_extract_file path;
  in_world (alloc bs).

(** [getBlob(path): Blob] *)
Definition getBlob (path : string) : Js PkgState Blob :=
  arr ← getBytes path;
  let mime := mimeFromPath path in
  content ← in_world (read_buffer arr);
  mret (new_Blob content mime).

(** [async getURL(path)] *)
Definition getURL (path : string) : Js PkgState string := λ s,
  match urlCache (fst s) !! path with
  | Some url => (Ok url, s)
  | None =>
      (blob ← getBlob path;
       url ← in_world (createObjectURL blob);
       modify (λ s', (set_urlCache (<[path := url]> (urlCache (fst s'))) (fst s'),
                      snd s'));;
       mret url) s
  end.

(** [getText(path): string] *)
Definition getText (path : string) : Js PkgState string :=
  arr ← getBytes path;
  content ← in_world (read_buffer arr);
  mret (TextDecoder_decode content).

(** The values of the URL cache. *)
Definition cached_urls (pkg : ZstPackage) : list string :=
  (map_to_list (urlCache pkg)).*2.

(** [dispose(): void] *)
Definition dispose : Js PkgState unit :=
  modify (λ s,
    let w' := foldr revokeObjectURL (snd s) (cached_urls (fst s)) in
    (set_reader (free (reader (fst s))) (set_urlCache ∅ (fst s)), w')).

(** The message of the exception of [encode]. *)
Definition encode_message : string :=
  "Encode not implemented — build wasm for zstd-encoder and wire it up here.".

(** [static async encode()]: the stub of the read-only helper; it takes no
    argument and rejects. *)
Definition encode : Js World bytes :=
  throw (Error encode_message).

(** What a caller can do with a package it holds: call a method (whatever
    the outcome, the state it leaves is kept) or write into one of its own
    buffers. *)
Inductive Call :=
| CallList
| CallGetBytes (path : string)
| CallGetBlob (path : string)
| CallGetURL (path : string)
| CallGetText (path : string)
| CallDispose
| CallerWrite (arr : nat) (content : bytes).

Definition exec (c : Call) (s : PkgState) : PkgState :=
  match c with
  | CallList => snd (list_ s)
  | CallGetBytes path => snd (getBytes path s)
  | CallGetBlob path => snd (getBlob path s)
  | CallGetURL path => snd (getURL path s)
  | CallGetText path => snd (getText path s)
  | CallDispose => snd (dispose s)
  | CallerWrite arr content => (fst s, write_buffer arr content (snd s))
  end.

Definition run (cs : list Call) (s : PkgState) : PkgState :=
  foldl (λ s c, exec c s) s cs.

Definition is_dispose (c : Call) : bool :=
  match c with CallDispose => true | _ => false end.

(** The bytes held by the array a call returned. *)
Definition returned_bytes (r : Result nat * PkgState) : Result bytes :=
  match r with
  | (Ok arr, s) => fst (read_buffer arr (snd s))
  | (Throw e, _) => Throw e
  end.

End Package.

(* ========================================================================= *)
(** * The reader engine                                                      *)
(* ========================================================================= *)

(** The engine behind [ZstdReader] is compiled code of which the sources hold
    the declarations only.  It is modelled here from the specification of the
    archive container: the index layout, the validation at open time, the
    frame codec contract and the four operations of the package reader. *)

Global Instance Result_ret : MRet Result := λ A a, Ok a.

Global Instance Result_bind : MBind Result := λ A B k m,
  match m with
  | Ok a => k a
  | Throw e => Throw e
  end.

(** Modelled from the spec: what the layout leaves to the implementation --
    the magic bytes, the supported version, the width of the unsigned fields
    (read little-endian), the width of the checksum field ([0] when the
    format declares none) with its digest, and the decompressor of one
    frame. *)
Class ArchiveFormat := {
  magic : bytes;
  supported_version : N;
  uint_width : nat;
  checksum_width : nat;
  digest : bytes → bytes;
  decompress : bytes → option bytes;
}.

(** Modelled from the spec: the Index Entry of the data model. *)
Record IndexEntry := {
  entry_path : string;
  compressed_offset : N;
  compressed_length : N;
  decompressed_length : N;
  checksum : bytes;
}.

(** Modelled from the spec: the package handle -- the archive bytes, the
    index built at open time, and whether [close] has been called. *)
Record SpecReader := {
  archive : bytes;
  index : list IndexEntry;
  closed : bool;
}.

(** Modelled from the spec: well-formedness of UTF-8, for the path bytes. *)
Fixpoint utf8_valid (bs : bytes) : bool :=
  match bs with
  | [] => true
  | b0 :: r =>
    if in_range 0x00 0x7F b0 then utf8_valid r
    else if in_range 0xC2 0xDF b0 then
      match r with
      | b1 :: r1 => in_range 0x80 0xBF b1 && utf8_valid r1
      | [] => false
      end
    else if in_range 0xE0 0xEF b0 then
      let lo := if in_range 0xE0 0xE0 b0 then 0xA0 else 0x80 in
      let hi := if in_range 0xED 0xED b0 then 0x9F else 0xBF in
      match r with
      | b1 :: b2 :: r2 =>
          in_range lo hi b1 && in_range 0x80 0xBF b2 && utf8_valid r2
      | _ => false
      end
    else if in_range 0xF0 0xF4 b0 then
      let lo := if in_range 0xF0 0xF0 b0 then 0x90 else 0x80 in
      let hi := if in_range 0xF4 0xF4 b0 then 0x8F else 0xBF in
      match r with
      | b1 :: b2 :: b3 :: r3 =>
          in_range lo hi b1 && in_range 0x80 0xBF b2 && in_range 0x80 0xBF b3
          && utf8_valid r3
      | _ => false
      end
    else false
  end.

(** Modelled from the spec: the unsigned fields of the layout, read and
    written little-endian, and the byte range [off, off + len) of a frame. *)
Fixpoint le_decode (bs : bytes) : N :=
  match bs with
  | [] => 0
  | b :: r => Byte.to_N b + 256 * le_decode r
  end.

Fixpoint le_encode (width : nat) (n : N) : bytes :=
  match width with
  | O => []
  | S w => default x00 (Byte.of_N (n mod 256)) :: le_encode w (n / 256)
  end.

Definition slice (off len : N) (bs : bytes) : bytes :=
  take (N.to_nat len) (drop (N.to_nat off) bs).

Section Engine.
Context {format : ArchiveFormat}.

(** Modelled from the spec: reading the fields of the layout of section 6
    from the front of the remaining bytes; [None] when they run out. *)
Definition read_bytes (n : N) (bs : bytes) : option (bytes * bytes) :=
  if n <=? N.of_nat (length bs)
  then Some (take (N.to_nat n) bs, drop (N.to_nat n) bs)
  else None.

Definition read_uint (bs : bytes) : option (N * bytes) :=
  match read_bytes (N.of_nat uint_width) bs with
  | Some (field, rest) => Some (le_decode field, rest)
  | None => None
  end.

Definition read_entry (bs : bytes) : option (IndexEntry * bytes) :=
  '(path_length, r1) ← read_uint bs;
  '(path_bytes, r2) ← read_bytes path_length r1;
  '(off, r3) ← read_uint r2;
  '(clen, r4) ← read_uint r3;
  '(dlen, r5) ← read_uint r4;
  '(sum, r6) ← read_bytes (N.of_nat checksum_width) r5;
  Some ({| entry_path := string_of_list_byte path_bytes;
           compressed_offset := off; compressed_length := clen;
           decompressed_length := dlen; checksum := sum |}, r6).

Fixpoint read_entries (count : nat) (bs : bytes) : option (list IndexEntry) :=
  match count with
  | O => Some []
  | S n =>
      '(e, rest) ← read_entry bs;
      es ← read_entries n rest;
      Some (e :: es)
  end.

(** Modelled from the spec: the layout declares the path bytes as UTF-8.
    No rule of section 4.1 checks this at open time; [path_ok] is the
    condition itself, for the statements about archives laid out as
    declared. *)
Definition path_ok (e : IndexEntry) : bool :=
  utf8_valid (list_byte_of_string (entry_path e)).

(** Modelled from the spec: the validation rules of section 4.1. *)
Definition in_bounds (total : N) (e : IndexEntry) : bool :=
  compressed_offset e + compressed_length e <=? total.

Definition overlap (a b : IndexEntry) : bool :=
  (0 <? compressed_length a) && (0 <? compressed_length b)
  && (compressed_offset a <? compressed_offset b + compressed_length b)
  && (compressed_offset b <? compressed_offset a + compressed_length a).

Fixpoint no_overlap (l : list IndexEntry) : bool :=
  match l with
  | [] => true
  | e :: r => forallb (λ x, negb (overlap e x)) r && no_overlap r
  end.

Definition unique_paths (l : list IndexEntry) : bool :=
  bool_decide (NoDup (entry_path <$> l)).

Definition refuse {A} (cause : OpenCause) : Result A :=
  Throw (EngineError (OpenError cause)).

(** Modelled from the spec: reading the index.  Magic and version are
    checked before anything else is trusted, then the entry count and the
    entries are read. *)
Definition parse_index (data : bytes) : Result (list IndexEntry) :=
  if negb (bool_decide (take (length magic) data = magic))
  then refuse MagicMismatch else
  match read_uint (drop (length magic) data) with
  | None => refuse Truncated
  | Some (version, r1) =>
    if negb (version =? supported_version) then refuse UnsupportedVersion else
    match read_uint r1 with
    | None => refuse Truncated
    | Some (entry_count, r2) =>
      match read_entries (N.to_nat entry_count) r2 with
      | None => refuse Truncated
      | Some idx => Ok idx
      end
    end
  end.

(** Modelled from the spec: the rules an index is held to at parse time,
    for an archive of [total] bytes. *)
Definition validate_index (total : N) (idx : list IndexEntry) : Result unit :=
  if negb (forallb (in_bounds total) idx) then refuse OutOfBounds
  else if negb (no_overlap idx) then refuse OverlappingRanges
  else if negb (unique_paths idx) then refuse DuplicatePath
  else Ok ().

(** Modelled from the spec: [open(bytes)], the constructor of the reader --
    the handle exists only when the index was read and passed every rule. *)
Definition open_archive (data : bytes) : Result SpecReader :=
  idx ← parse_index data;
  validate_index (N.of_nat (length data)) idx;;
  Ok {| archive := data; index := idx; closed := false |}.

(** Modelled from the spec: the frame codec contract of section 4.2 -- the
    output has the declared length or the decode fails. *)
Definition decode (frame : bytes) (declaredLength : N) : Result bytes :=
  match decompress frame with
  | None => Throw (EngineError DecodeError)
  | Some out =>
      if N.of_nat (length out) =? declaredLength then Ok out
      else Throw (EngineError DecodeError)
  end.

Definition lookup_entry (path : string) (idx : list IndexEntry)
  : option IndexEntry :=
  List.find (λ e, bool_decide (entry_path e = path)) idx.

(** Modelled from the spec: [extract(path)] of section 4.3. *)
Definition extract (path : string) (r : SpecReader) : Result bytes :=
  if closed r then Throw (EngineError ClosedError) else
  match lookup_entry path (index r) with
  | None => Throw (EngineError PathNotFound)
  | Some e =>
      out ← decode (slice (compressed_offset e) (compressed_length e) (archive r))
                   (decompressed_length e);
      if (checksum_width =? 0)%nat then Ok out
      else if bool_decide (digest out = checksum e) then Ok out
      else Throw (EngineError IntegrityError)
  end.

(** Modelled from the spec: [list()] of section 4.3, in the form the helper
    receives it -- the JSON text, in UTF-8, of the paths in index order. *)
Definition file_list (r : SpecReader) : Result bytes :=
  if closed r then Throw (EngineError ClosedError)
  else Ok (list_byte_of_string (JSON_stringify (entry_path <$> index r))).

(** Modelled from the spec: [close]. *)
Definition close (r : SpecReader) : SpecReader :=
  {| archive := archive r; index := index r; closed := true |}.

(** Modelled from the spec: the engine as the helper sees it.  Extraction
    and listing read the handle and leave it as it is. *)
Global Instance spec_engine : ZstdEngine := {|
  ZstdReader := SpecReader;
  initWasm := λ _, Ok tt;
  ZstdReader_new := open_archive;
  get_file_list := λ r, (file_list r, r);
  extract_file := λ path r, (extract path r, r);
  free := close;
|}.

End Engine.

(* ========================================================================= *)
(** * The write side of the layout                                           *)
(* ========================================================================= *)

(** Modelled from the spec: the write side of the layout of section 6 (the
    encoding tool is not part of the repository). *)
Definition write_uint `{ArchiveFormat} (n : N) : bytes := le_encode uint_width n.

Definition write_entry `{ArchiveFormat} (e : IndexEntry) : bytes :=
  write_uint (N.of_nat (length (list_byte_of_string (entry_path e))))
  ++ list_byte_of_string (entry_path e)
  ++ write_uint (compressed_offset e)
  ++ write_uint (compressed_length e)
  ++ write_uint (decompressed_length e)
  ++ checksum e.

Definition write_archive `{ArchiveFormat} (idx : list IndexEntry) (frames : bytes)
  : bytes :=
  magic ++ write_uint supported_version ++ write_uint (N.of_nat (length idx))
  ++ concat (write_entry <$> idx) ++ frames.

(** Modelled from the spec: the index part of an archive, everything before
    the frames. *)
Definition index_bytes `{ArchiveFormat} (idx : list IndexEntry) : bytes :=
  magic ++ write_uint supported_version ++ write_uint (N.of_nat (length idx))
  ++ concat (write_entry <$> idx).

Section Encoder.
Context {format : ArchiveFormat}.
Variable compress : bytes → bytes.

(** Modelled from the spec: the checksum field of an entry, the digest of
    the content when the format declares a checksum. *)
Definition stored_checksum (content : bytes) : bytes :=
  if (checksum_width =? 0)%nat then [] else digest content.

(** Modelled from the spec: the index entries of the files, in the order
    given, the frames placed one after the other from offset [off] on. *)
Fixpoint layout (off : N) (files : list (string * bytes)) : list IndexEntry :=
  match files with
  | [] => []
  | (path, content) :: rest =>
      {| entry_path := path;
         compressed_offset := off;
         compressed_length := N.of_nat (length (compress content));
         decompressed_length := N.of_nat (length content);
         checksum := stored_checksum content |}
      :: layout (off + N.of_nat (length (compress content))) rest
  end.

(** Modelled from the spec: the frames of the files, one after the other. *)
Fixpoint frames (files : list (string * bytes)) : bytes :=
  match files with
  | [] => []
  | (_, content) :: rest => compress content ++ frames rest
  end.

(** Modelled from the spec: the number of bytes before the first frame --
    magic, version, entry count and the entries, whose sizes do not depend
    on the offsets they hold. *)
Definition index_size (files : list (string * bytes)) : nat :=
  length (index_bytes (layout 0 files)).

(** Modelled from the spec: the archive an encoder produces for the files --
    the index of section 6, then the frames, the first one right behind the
    index. *)
Definition encode_archive (files : list (string * bytes)) : bytes :=
  write_archive (layout (N.of_nat (index_size files)) files) (frames files).

(** Modelled from the spec: a number that an unsigned field of the layout
    can hold. *)
Definition fits (n : N) : bool := n <? 256 ^ N.of_nat uint_width.

(** Modelled from the spec: an entry whose numbers fit the fields and whose
    checksum has the width of the field. *)
Definition entry_fits (e : IndexEntry) : Prop :=
  fits (N.of_nat (length (list_byte_of_string (entry_path e)))) = true
  ∧ fits (compressed_offset e) = true
  ∧ fits (compressed_length e) = true
  ∧ fits (decompressed_length e) = true
  ∧ length (checksum e) = checksum_width.

(** Modelled from the spec: the files can be written in this format -- the
    version, the entry count, the size of the archive (hence every offset
    and frame length), the path lengths and the content lengths fit the
    unsigned fields. *)
Definition encodable (files : list (string * bytes)) : bool :=
  fits supported_version
  && fits (N.of_nat (length files))
  && fits (N.of_nat (length (encode_archive files)))
  && forallb (λ f, fits (N.of_nat (length (list_byte_of_string (fst f))))
                   && fits (N.of_nat (length (snd f)))) files.

End Encoder.

(* ========================================================================= *)
(** * A concrete archive                                                     *)
(* ========================================================================= *)

(** An instance of the format for the examples: four-byte fields, no
    checksum, frames stored as they are. *)
Definition stored_format : ArchiveFormat := {|
  magic := list_byte_of_string "ZPK1";
  supported_version := 1;
  uint_width := 4;
  checksum_width := 0;
  digest := λ _, [];
  decompress := λ frame, Some frame;
|}.

(** The archive of the example scenario: a.bin = 1 2 3 and b.bin = 9 9. *)
Definition example_index : list IndexEntry :=
  [ {| entry_path := "a.bin"; compressed_offset := 54; compressed_length := 3;
       decompressed_length := 3; checksum := [] |};
    {| entry_path := "b.bin"; compressed_offset := 57; compressed_length := 2;
       decompressed_length := 2; checksum := [] |} ].

Definition example_archive : bytes :=
  @write_archive stored_format example_index [x01; x02; x03; x09; x09].

Definition example_world : World :=
  {| wasmInit := None; heap := {[ 0%nat := example_archive ]};
     objectURLs := ∅; urlsCreated := 0; network := ∅ |}.

Definition example_reader : SpecReader :=
  {| archive := example_archive; index := example_index; closed := false |}.

Definition example_package : @ZstPackage (@spec_engine stored_format) :=
  @Build_ZstPackage (@spec_engine stored_format)
    example_reader ["a.bin"; "b.bin"] ∅.

Definition example_state : @PkgState (@spec_engine stored_format) :=
  (example_package, set_wasmInit (Some (Ok tt)) example_world).

(** The example archive with one byte of its index changed: the declared
    decompressed length of a.bin, byte 29, reads 5 instead of 3. *)
Definition flipped_archive : bytes := <[29%nat := x05]> example_archive.

Definition flipped_world : World :=
  {| wasmInit := None; heap := {[ 0%nat := flipped_archive ]};
     objectURLs := ∅; urlsCreated := 0; network := ∅ |}.

Definition flipped_index : list IndexEntry :=
  [ {| entry_path := "a.bin"; compressed_offset := 54; compressed_length := 3;
       decompressed_length := 5; checksum := [] |};
    {| entry_path := "b.bin"; compressed_offset := 57; compressed_length := 2;
       decompressed_length := 2; checksum := [] |} ].

Definition flipped_package : @ZstPackage (@spec_engine stored_format) :=
  @Build_ZstPackage (@spec_engine stored_format)
    {| archive := flipped_archive; index := flipped_index; closed := false |}
    ["a.bin"; "b.bin"] ∅.

(** The files of the example archive as an encoder is given them, and the
    compressor of the example format, which stores a content as it is. *)
Definition example_files : list (string * bytes) :=
  [("a.bin", [x01; x02; x03]); ("b.bin", [x09; x09])].

Definition stored (content : bytes) : bytes := content.

(** A second instance of the format: two-byte fields, a one-byte checksum
    (the sum of the bytes modulo 256), frames holding the content back to
    front. *)
Definition byte_sum (content : bytes) : bytes :=
  [default x00 (Byte.of_N (foldr (λ b acc, (Byte.to_N b + acc) mod 256) 0 content))].

Definition mirrored_format : ArchiveFormat := {|
  magic := list_byte_of_string "ZPK2";
  supported_version := 2;
  uint_width := 2;
  checksum_width := 1;
  digest := byte_sum;
  decompress := λ frame, Some (rev frame);
|}.

(** The example files written in that format, the archive with the last
    byte of the last frame changed, and the worlds that hold them. *)
Definition mirrored_archive : bytes :=
  @encode_archive mirrored_format (@rev byte) example_files.

Definition damaged_archive : bytes :=
  <[(length mirrored_archive - 1)%nat := x08]> mirrored_archive.

Definition world_of (data : bytes) : World :=
  {| wasmInit := None; heap := {[ 0%nat := data ]};
     objectURLs := ∅; urlsCreated := 0; network := ∅ |}.

(** An archive whose one path field holds the byte ff, which is not UTF-8,
    and the text the decoder makes of that path. *)
Definition odd_path : string := String (ascii_of_N 255) "a".

Definition odd_path_decoded : string :=
  String (ascii_of_N 239) (String (ascii_of_N 191) (String (ascii_of_N 189) "a")).

Definition odd_archive : bytes :=
  @encode_archive stored_format stored [(odd_path, [x07])].

(** Calls a holder of the example package makes between two reads. *)
Definition example_calls : list Call :=
  [CallGetBytes "b.bin"; CallGetURL "b.bin"; CallerWrite 1 [xff]; CallList;
   CallGetText "a.bin"].

(* ========================================================================= *)
(** * Predicates used in the statements                                      *)
(* ========================================================================= *)

(** The lowercased last dot-separated segment of a path, as [mimeFromPath]
    computes it. *)
Definition extension (path : string) : string :=
  match pop (split "." path) with
  | Some seg => toLowerCase seg
  | None => EmptyString
  end.

(** The bounds of the second byte of a three- and of a four-byte sequence. *)
Definition lo3 (b0 : byte) : N := if in_range 0xE0 0xE0 b0 then 0xA0 else 0x80.
Definition hi3 (b0 : byte) : N := if in_range 0xED 0xED b0 then 0x9F else 0xBF.
Definition lo4 (b0 : byte) : N := if in_range 0xF0 0xF0 b0 then 0x90 else 0x80.
Definition hi4 (b0 : byte) : N := if in_range 0xF4 0xF4 b0 then 0x8F else 0xBF.

(** Well-formed UTF-8, one scalar value after the other. *)
Inductive wf_utf8 : bytes → Prop :=
| wf_nil : wf_utf8 []
| wf_one b0 r :
    in_range 0x00 0x7F b0 = true → wf_utf8 r → wf_utf8 (b0 :: r)
| wf_two b0 b1 r :
    in_range 0xC2 0xDF b0 = true → in_range 0x80 0xBF b1 = true →
    wf_utf8 r → wf_utf8 (b0 :: b1 :: r)
| wf_three b0 b1 b2 r :
    in_range 0xE0 0xEF b0 = true → in_range (lo3 b0) (hi3 b0) b1 = true →
    in_range 0x80 0xBF b2 = true →
    wf_utf8 r → wf_utf8 (b0 :: b1 :: b2 :: r)
| wf_four b0 b1 b2 b3 r :
    in_range 0xF0 0xF4 b0 = true → in_range (lo4 b0) (hi4 b0) b1 = true →
    in_range 0x80 0xBF b2 = true → in_range 0x80 0xBF b3 = true →
    wf_utf8 r → wf_utf8 (b0 :: b1 :: b2 :: b3 :: r).

(** The byte positions of the frame of an entry. *)
Definition in_frame (e : IndexEntry) (i : N) : Prop :=
  compressed_offset e <= i < compressed_offset e + compressed_length e.

(** The invariants of the index of an archive of [total] bytes. *)
Record index_valid (total : N) (idx : list IndexEntry) : Prop := {
  valid_bounds : ∀ e, e ∈ idx →
    compressed_offset e + compressed_length e <= total;
  valid_disjoint : ∀ i j a b, (i < j)%nat → idx !! i = Some a → idx !! j = Some b →
    ∀ k, ¬ (in_frame a k ∧ in_frame b k);
  valid_unique : NoDup (entry_path <$> idx);
}.

(** The archive starts with the magic bytes and the supported version. *)
Definition header_ok `{ArchiveFormat} (data : bytes) : Prop :=
  take (length magic) data = magic
  ∧ ∃ rest, read_uint (drop (length magic) data) = Some (supported_version, rest).

(** The paths of the index of [data] are well-formed UTF-8, as the layout
    declares them; nothing is asked of an archive whose index cannot be
    read. *)
Definition paths_utf8 `{ArchiveFormat} (data : bytes) : Prop :=
  match parse_index data with
  | Ok idx => forallb path_ok idx = true
  | Throw _ => True
  end.

(** A package ready to be queried over the archive [data]: the archive
    starts with the magic bytes and the supported version, the reader holds
    the parsed and valid index and is not closed, the file index lists the
    entry paths in index order, the URL cache is empty. *)
Definition ready `{ArchiveFormat} (data : bytes) (pkg : @ZstPackage spec_engine) : Prop :=
  ∃ idx, header_ok data
         ∧ parse_index data = Ok idx
         ∧ index_valid (N.of_nat (length data)) idx
         ∧ reader pkg = {| archive := data; index := idx; closed := false |}
         ∧ fileIndex pkg = entry_path <$> idx
         ∧ urlCache pkg = ∅.

(** What an extraction from an opened package may end with. *)
Definition extract_outcome {A} (path : string) (r : Result A) : Prop :=
  match r with
  | Ok _ => True
  | Throw e => e = path_not_found path
               ∨ e = EngineError DecodeError
               ∨ e = EngineError IntegrityError
  end.

(** What an extraction makes of the frame of the entry [e]: the content,
    when the frame decompresses to the declared length and, if a checksum is
    declared, to the declared digest; an [IntegrityError] when only the
    digest differs; a [DecodeError] when the frame does not decompress or
    not to the declared length. *)
Definition content_checked `{ArchiveFormat} (e : IndexEntry) (frame : bytes)
  (r : Result bytes) : Prop :=
  (∀ out, decompress frame = Some out →
          N.of_nat (length out) = decompressed_length e →
          checksum_width = 0%nat ∨ digest out = checksum e →
          r = Ok out)
  ∧ (∀ out, decompress frame = Some out →
            N.of_nat (length out) = decompressed_length e →
            checksum_width ≠ 0%nat → digest out ≠ checksum e →
            r = Throw (EngineError IntegrityError))
  ∧ (decompress frame = None
     ∨ (∃ out, decompress frame = Some out
               ∧ N.of_nat (length out) ≠ decompressed_length e) →
     r = Throw (EngineError DecodeError)).

(** Failing with the after-close error. *)
Definition fails_with_ClosedError {A} (r : Result A) : Prop :=
  r = Throw (EngineError ClosedError).

(** The world has not recorded a failed start of the wasm module. *)
Definition wasm_usable (w : World) : Prop :=
  wasmInit w = None ∨ wasmInit w = Some (Ok ()).

(* ========================================================================= *)
(** * The URL cache against the URL store                                    *)
(* ========================================================================= *)

(** A string of ASCII characters. *)
Fixpoint ascii_only (s : string) : bool :=
  match s with
  | EmptyString => true
  | String c r => (N_of_ascii c <? 128) && ascii_only r
  end.

(** A string without a dot. *)
Fixpoint dot_free (s : string) : bool :=
  match s with
  | EmptyString => true
  | String c r => negb (ascii_eqb c ".") && dot_free r
  end.

(** The MIME types of the table. *)
Definition known_mime_types : list string :=
  ["image/webp"; "audio/ogg"; "model/gltf+json"; "application/octet-stream"].

(** The [n]-th URL [URL.createObjectURL] hands out. *)
Definition blob_url (n : nat) : string := "blob:" +:+ pretty n.

(** The URLs not handed out yet name no blob. *)
Definition urls_fresh (w : World) : Prop :=
  ∀ n, (urlsCreated w ≤ n)%nat → objectURLs w !! blob_url n = None.

(** A call that is a method of the package (not a write of the caller). *)
Definition is_method (c : Call) : bool :=
  match c with CallerWrite _ _ => false | _ => true end.

Section CacheInvariant.
Context {engine : ZstdEngine}.

(** What the cache of a package keeps true of the URL store: every cached
    URL was created for the package (its number is at least [lo]), is live,
    names a Blob with the MIME type of its path, belongs to a listed path,
    and is cached for that path only. *)
Record cache_ok (lo : nat) (s : PkgState) : Prop := {
  store_fresh : urls_fresh (snd s);
  cache_from : (lo ≤ urlsCreated (snd s))%nat;
  cache_numbered : ∀ p u, urlCache (fst s) !! p = Some u →
    ∃ n, u = blob_url n ∧ (lo ≤ n < urlsCreated (snd s))%nat;
  cache_live : ∀ p u, urlCache (fst s) !! p = Some u →
    ∃ blob, objectURLs (snd s) !! u = Some blob
            ∧ blob_type blob = normalize_type (ToString (mimeFromPath p));
  cache_listed : ∀ p u, urlCache (fst s) !! p = Some u → p ∈ fileIndex (fst s);
  cache_inj : ∀ p q u, urlCache (fst s) !! p = Some u →
    urlCache (fst s) !! q = Some u → p = q;
}.

End CacheInvariant.

(* ========================================================================= *)
(** * The example page, [example.ts]                                         *)
(* ========================================================================= *)

(** What the script leaves on the page: the lines of [console.log], the
    images appended to [document.body] and the [Audio] objects on which
    [play()] was called.  [autoplay] is what the browser settles
    [audio.play()] to. *)
Record AudioObject := {
  audio_src : string;
  audio_loop : bool;
}.

Record Page := {
  page_world : World;
  console : list (list string);
  body_images : list string;          (* [src] of each appended image *)
  play_calls : list AudioObject;
  autoplay : Result unit;
}.

Definition set_page_world (w : World) (pg : Page) : Page :=
  {| page_world := w; console := console pg; body_images := body_images pg;
     play_calls := play_calls pg; autoplay := autoplay pg |}.

Definition console_log (line : list string) (pg : Page) : Page :=
  {| page_world := page_world pg; console := console pg ++ [line];
     body_images := body_images pg; play_calls := play_calls pg;
     autoplay := autoplay pg |}.

Definition show_media (imgURL audioURL : string) (pg : Page) : Page :=
  {| page_world := page_world pg; console := console pg;
     body_images := body_images pg ++ [imgURL];
     play_calls := play_calls pg ++ [{| audio_src := audioURL; audio_loop := true |}];
     autoplay := autoplay pg |}.

(** The page [after] shows no image and plays no sound that [before] did
    not. *)
Definition nothing_shown (before after : Page) : Prop :=
  body_images after = body_images before ∧ play_calls after = play_calls before.

Section ExamplePage.
Context {engine : ZstdEngine}.

(** The async function of [example.ts]. *)
Definition example_main : Js Page unit := λ pg,
  match open (SrcString "/assets.zst") None (page_world pg) with
  | (Throw e, w1) => (Throw e, set_page_world w1 pg)
  | (Ok pkg, w1) =>
    match list_ (pkg, w1) with
    | (Throw e, s1) => (Throw e, set_page_world (snd s1) pg)
    | (Ok files, s1) =>
      let pg1 := console_log files pg in
      match getURL "textures/hero.webp" s1 with
      | (Throw e, s2) => (Throw e, set_page_world (snd s2) pg1)
      | (Ok imgURL, s2) =>
        match getURL "audio/bgm.ogg" s2 with
        | (Throw e, s3) => (Throw e, set_page_world (snd s3) pg1)
        | (Ok audioURL, s3) =>
            (autoplay pg,
             show_media imgURL audioURL (set_page_world (snd s3) pg1))
        end
      end
    end
  end.

End ExamplePage.

(** An engine whose wasm module cannot be started. *)
Definition broken_engine : ZstdEngine := {|
  ZstdReader := unit;
  initWasm := λ _, Throw (Error "wasm module failed to load");
  ZstdReader_new := λ _, Ok ();
  get_file_list := λ r, (Ok [], r);
  extract_file := λ _ r, (Ok [], r);
  free := λ r, r;
|}.



(** A world whose server does not have the archive. *)
Definition missing_world : World :=
  {| wasmInit := None; heap := ∅; objectURLs := ∅; urlsCreated := 0;
     network := {[ "/assets.zst" := (404%nat, []) ]} |}.

(** Method calls on the example package, a [dispose] among them. *)
Definition example_method_calls : list Call :=
  [CallGetBytes "b.bin"; CallGetURL "b.bin"; CallList; CallDispose;
   CallGetText "a.bin"].

(** The archive the example page fetches: an image and a sound. *)
Definition assets_index : list IndexEntry :=
  [ {| entry_path := "textures/hero.webp"; compressed_offset := 75;
       compressed_length := 4; decompressed_length := 4; checksum := [] |};
    {| entry_path := "audio/bgm.ogg"; compressed_offset := 79;
       compressed_length := 4; decompressed_length := 4; checksum := [] |} ].

Definition assets_archive : bytes :=
  @write_archive stored_format assets_index
    [x52; x49; x46; x46; x4f; x67; x67; x53].

Definition assets_reader : SpecReader :=
  {| archive := assets_archive; index := assets_index; closed := false |}.

Definition assets_package : @ZstPackage (@spec_engine stored_format) :=
  @Build_ZstPackage (@spec_engine stored_format) assets_reader
    ["textures/hero.webp"; "audio/bgm.ogg"] ∅.

Definition assets_page : Page :=
  {| page_world :=
       {| wasmInit := None; heap := ∅; objectURLs := ∅; urlsCreated := 0;
          network := {[ "/assets.zst" := (200%nat, assets_archive) ]} |};
     console := []; body_images := []; play_calls := []; autoplay := Ok () |}.

(* ========================================================================= *)
(** * Properties of the helper, for every reader engine                      *)
(* ========================================================================= *)

Section PackageProperties.
Context {engine : ZstdEngine}.
Implicit Types (pkg : ZstPackage) (w : World) (s : PkgState) (path : string).

Lemma set_reader_id pkg : set_reader (reader pkg) pkg = pkg.
Proof. destruct pkg; reflexivity. Qed.

Lemma set_heap_id w : set_heap (heap w) w = w.
Proof. destruct w; reflexivity. Qed.

Lemma getBytes_unfold path pkg w :
  getBytes path (pkg, w) =
  if bool_decide (path ∈ fileIndex pkg) then
    match extract_file path (reader pkg) with
    | (Ok bs, rd') =>
        (Ok (fresh (dom (heap w))),
         (set_reader rd' pkg, set_heap (<[fresh (dom (heap w)) := bs]> (heap w)) w))
    | (Throw e, rd') => (Throw e, (set_reader rd' pkg, w))
    end
  else (Throw (path_not_found path), (pkg, w)).
Proof.
  unfold getBytes, mbind, Js_bind, assertPath, reader_extract_file, in_world, alloc.
  cbn [fst snd]. destruct (bool_decide _); [|reflexivity].
  cbn [fst snd]. destruct (extract_file path (reader pkg)) as [[bs|e] rd']; reflexivity.
Qed.

(** A call of [getBytes] changes at most the reader and the heap. *)
Lemma getBytes_state path s :
  ∃ rd h, snd (getBytes path s) = (set_reader rd (fst s), set_heap h (snd s)).
Proof.
  destruct s as [pkg w]. rewrite getBytes_unfold.
  destruct (bool_decide _).
  - destruct (extract_file path (reader pkg)) as [[bs|e] rd']; cbn [fst snd].
    + eauto.
    + exists rd', (heap w). by rewrite set_heap_id.
  - exists (reader pkg), (heap w). cbn [fst snd].
    by rewrite set_reader_id, set_heap_id.
Qed.

(** The array [getBytes] returns is new and holds what the reader gave. *)
Lemma getBytes_Ok path s arr s' :
  getBytes path s = (Ok arr, s') →
  path ∈ fileIndex (fst s) ∧ heap (snd s) !! arr = None ∧
  ∃ bs rd', extract_file path (reader (fst s)) = (Ok bs, rd') ∧
            s' = (set_reader rd' (fst s), set_heap (<[arr := bs]> (heap (snd s))) (snd s)).
Proof.
  destruct s as [pkg w]. rewrite getBytes_unfold. cbn [fst snd].
  case_bool_decide as Hin; [|discriminate].
  destruct (extract_file path (reader pkg)) as [[bs|e] rd'] eqn:Hex; [|discriminate].
  intros [= <- <-]. split; [done|]. split.
  - apply not_elem_of_dom, is_fresh.
  - eauto.
Qed.

Lemma returned_bytes_getBytes path s :
  path ∈ fileIndex (fst s) →
  returned_bytes (getBytes path s) = fst (extract_file path (reader (fst s))).
Proof.
  destruct s as [pkg w]. intros Hin. rewrite getBytes_unfold. cbn [fst snd] in *.
  rewrite bool_decide_eq_true_2 by done.
  destruct (extract_file path (reader pkg)) as [[bs|e] rd']; cbn; [|done].
  unfold read_buffer. cbn. by rewrite lookup_insert_eq.
Qed.

Lemma getBlob_unfold path s :
  getBlob path s =
  match getBytes path s with
  | (Ok arr, s1) =>
      match heap (snd s1) !! arr with
      | Some content => (Ok (new_Blob content (mimeFromPath path)), s1)
      | None => (Throw (TypeError "not a buffer"), s1)
      end
  | (Throw e, s1) => (Throw e, s1)
  end.
Proof.
  unfold getBlob, mbind, Js_bind at 1.
  destruct (getBytes path s) as [[arr|e] [pkg1 w1]]; [|reflexivity].
  unfold Js_bind, in_world, read_buffer. cbn [fst snd].
  destruct (heap w1 !! arr); reflexivity.
Qed.

Lemma getText_unfold path s :
  getText path s =
  match getBytes path s with
  | (Ok arr, s1) =>
      match heap (snd s1) !! arr with
      | Some content => (Ok (TextDecoder_decode content), s1)
      | None => (Throw (TypeError "not a buffer"), s1)
      end
  | (Throw e, s1) => (Throw e, s1)
  end.
Proof.
  unfold getText, mbind, Js_bind at 1.
  destruct (getBytes path s) as [[arr|e] [pkg1 w1]]; [|reflexivity].
  unfold Js_bind, in_world, read_buffer. cbn [fst snd].
  destruct (heap w1 !! arr); reflexivity.
Qed.

Lemma getBlob_state path s : snd (getBlob path s) = snd (getBytes path s).
Proof.
  rewrite getBlob_unfold. destruct (getBytes path s) as [[arr|e] s1]; [|done].
  by destruct (heap (snd s1) !! arr).
Qed.

Lemma getText_state path s : snd (getText path s) = snd (getBytes path s).
Proof.
  rewrite getText_unfold. destruct (getBytes path s) as [[arr|e] s1]; [|done].
  by destruct (heap (snd s1) !! arr).
Qed.

Lemma getURL_unfold path s :
  getURL path s =
  match urlCache (fst s) !! path with
  | Some url => (Ok url, s)
  | None =>
      match getBlob path s with
      | (Ok blob, s1) =>
          let url := "blob:" +:+ pretty (urlsCreated (snd s1)) in
          (Ok url,
           (set_urlCache (<[path := url]> (urlCache (fst s1))) (fst s1),
            set_objectURLs (<[url := blob]> (objectURLs (snd s1)))
                           (S (urlsCreated (snd s1))) (snd s1)))
      | (Throw e, s1) => (Throw e, s1)
      end
  end.
Proof.
  unfold getURL. destruct (urlCache (fst s) !! path); [reflexivity|].
  unfold mbind, Js_bind at 1.
  destruct (getBlob path s) as [[blob|e] [pkg1 w1]]; reflexivity.
Qed.

Lemma exec_fileIndex c s : fileIndex (fst (exec c s)) = fileIndex (fst s).
Proof.
  destruct c as [|p|p|p|p| |arr content]; cbn [exec]; try done.
  - destruct (getBytes_state p s) as (rd & h & ->). done.
  - rewrite getBlob_state. destruct (getBytes_state p s) as (rd & h & ->). done.
  - rewrite getURL_unfold. destruct (urlCache (fst s) !! p); [done|].
    pose proof (getBlob_state p s) as Hs.
    destruct (getBlob p s) as [[blob|e] s1]; cbn [fst snd] in *; subst s1;
      destruct (getBytes_state p s) as (rd & h & ->); done.
  - rewrite getText_state. destruct (getBytes_state p s) as (rd & h & ->). done.
Qed.

Lemma run_fileIndex calls s : fileIndex (fst (run calls s)) = fileIndex (fst s).
Proof.
  revert s. induction calls as [|c calls IH]; intros s; [done|].
  cbn. unfold run in IH. rewrite IH. apply exec_fileIndex.
Qed.

Lemma getURL_cache_post path s url s1 :
  getURL path s = (Ok url, s1) → urlCache (fst s1) !! path = Some url.
Proof.
  rewrite getURL_unfold. destruct (urlCache (fst s) !! path) eqn:Hc.
  - by intros [= <- <-].
  - destruct (getBlob path s) as [[blob|e] s0]; [|done].
    intros [= <- <-]. cbn. apply lookup_insert_eq.
Qed.

Lemma exec_cache_kept c s path url :
  is_dispose c = false →
  urlCache (fst s) !! path = Some url →
  urlCache (fst (exec c s)) !! path = Some url.
Proof.
  intros Hc Hin.
  destruct c as [|p|p|p|p| |arr content]; cbn [exec]; try done.
  - destruct (getBytes_state p s) as (rd & h & ->). done.
  - rewrite getBlob_state. destruct (getBytes_state p s) as (rd & h & ->). done.
  - rewrite getURL_unfold. destruct (urlCache (fst s) !! p) eqn:Hp; [done|].
    pose proof (getBlob_state p s) as Hs.
    destruct (getBlob p s) as [[blob|e] s1]; cbn [fst snd] in *; subst s1;
      destruct (getBytes_state p s) as (rd & h & ->); cbn; [|done].
    rewrite lookup_insert_ne; [done|]. intros ->. congruence.
  - rewrite getText_state. destruct (getBytes_state p s) as (rd & h & ->). done.
Qed.

Lemma run_cache_kept calls s path url :
  forallb (λ c, negb (is_dispose c)) calls = true →
  urlCache (fst s) !! path = Some url →
  urlCache (fst (run calls s)) !! path = Some url.
Proof.
  revert s. induction calls as [|c calls IH]; intros s Hnd Hin; [done|].
  cbn in Hnd. apply andb_true_iff in Hnd as [Hc Hnd].
  cbn. apply IH; [done|]. apply exec_cache_kept; [|done].
  by destruct (is_dispose c).
Qed.

Lemma revoke_all_gone urls w u :
  u ∈ urls → objectURLs (foldr revokeObjectURL w urls) !! u = None.
Proof.
  induction urls as [|x urls IH]; intros Hin; [by apply elem_of_nil in Hin|].
  cbn. destruct (decide (u = x)) as [->|Hne].
  - apply lookup_delete_eq.
  - rewrite lookup_delete_ne by done. apply IH.
    apply elem_of_cons in Hin as [?|?]; [done|done].
Qed.

Lemma cached_urls_elem pkg path url :
  urlCache pkg !! path = Some url → url ∈ cached_urls pkg.
Proof.
  intros Hin. unfold cached_urls. apply list_elem_of_fmap.
  exists (path, url). split; [done|]. by apply elem_of_map_to_list.
Qed.

Lemma ensureWasm_heap wasmURL w : heap (snd (ensureWasm wasmURL w)) = heap w.
Proof. unfold ensureWasm. by destruct (wasmInit w). Qed.

Lemma ensureWasm_network wasmURL w :
  network (snd (ensureWasm wasmURL w)) = network w.
Proof. unfold ensureWasm. by destruct (wasmInit w). Qed.

Lemma new_ZstPackage_world data w : snd (new_ZstPackage data w) = w.
Proof.
  unfold new_ZstPackage, mbind, Js_bind, read_buffer, lift.
  destruct (heap w !! data) as [bs|]; [|done].
  destruct (ZstdReader_new bs) as [rd|e]; [|done].
  destruct (get_file_list rd) as [[listJSON|e] rd']; [|done].
  by destruct (JSON_parse _).
Qed.

Lemma open_Ok source wasmURL w pkg w' :
  open source wasmURL w = (Ok pkg, w') →
  ∃ data rd listJSON,
    source_bytes source w = Some data ∧
    ZstdReader_new data = Ok rd ∧
    get_file_list rd = (Ok listJSON, reader pkg) ∧
    JSON_parse (TextDecoder_decode listJSON) = Ok (fileIndex pkg) ∧
    urlCache pkg = ∅.
Proof.
  unfold open, mbind, Js_bind at 1.
  destruct (ensureWasm wasmURL w) as [[[]|e] w1] eqn:Hw; [|done].
  assert (Hh : heap w1 = heap w) by (by rewrite <- (ensureWasm_heap wasmURL w), Hw).
  assert (Hn : network w1 = network w)
    by (by rewrite <- (ensureWasm_network wasmURL w), Hw).
  assert (Hnew : ∀ buf w2 data, heap w2 !! buf = Some data →
            new_ZstPackage buf w2 = (Ok pkg, w') →
            ∃ rd listJSON, ZstdReader_new data = Ok rd ∧
              get_file_list rd = (Ok listJSON, reader pkg) ∧
              JSON_parse (TextDecoder_decode listJSON) = Ok (fileIndex pkg) ∧
              urlCache pkg = ∅).
  { intros buf w2 data Hb. unfold new_ZstPackage, mbind, Js_bind, read_buffer, lift.
    rewrite Hb. destruct (ZstdReader_new data) as [rd|e]; [|done].
    destruct (get_file_list rd) as [[listJSON|e] rd'] eqn:Hl; [|done].
    destruct (JSON_parse _) as [idx|e] eqn:Hp; [|done].
    intros [= <- <-]. by exists rd, listJSON. }
  assert (Hmiss : ∀ buf w2, heap w2 !! buf = None →
            new_ZstPackage buf w2 ≠ (Ok pkg, w')).
  { intros buf w2 Hb. unfold new_ZstPackage, mbind, Js_bind, read_buffer.
    by rewrite Hb. }
  unfold Js_bind.
  destruct source as [url|buf|arr]; cbn [source_bytes].
  - unfold mbind, Js_bind, fetch. rewrite Hn.
    destruct (network w !! url) as [[status body]|]; [|done]. cbn [fst snd].
    destruct (response_ok status); [|done].
    unfold alloc. intros Hopen.
    destruct (Hnew _ _ body (lookup_insert_eq _ _ _) Hopen) as (rd & lj & ?).
    by exists body, rd, lj.
  - unfold mret, Js_ret. intros Hopen.
    destruct (heap w1 !! buf) as [data|] eqn:Hb; [|by destruct (Hmiss _ _ Hb)].
    destruct (Hnew _ _ data Hb Hopen) as (rd & lj & ?).
    exists data, rd, lj. by rewrite <- Hh.
  - unfold mret, Js_ret. intros Hopen.
    destruct (heap w1 !! arr) as [data|] eqn:Hb; [|by destruct (Hmiss _ _ Hb)].
    destruct (Hnew _ _ data Hb Hopen) as (rd & lj & ?).
    exists data, rd, lj. by rewrite <- Hh.
Qed.

(** C1 -- [getBytes] on a path that is not in the file index throws the
    path-not-found error and leaves the package and the world as they were:
    every later [getBytes] has the outcome it would have had without the
    failed call, and for a listed path that outcome is a new array holding
    the bytes the reader extracts for it. *)
Theorem getBytes_missing_path pkg w path :
  path ∉ fileIndex pkg →
  getBytes path (pkg, w) = (Throw (path_not_found path), (pkg, w))
  ∧ (∀ q, getBytes q (snd (getBytes path (pkg, w))) = getBytes q (pkg, w))
  ∧ (∀ q, q ∈ fileIndex pkg →
       returned_bytes (getBytes q (snd (getBytes path (pkg, w))))
       = fst (extract_file q (reader pkg))).
Proof.
  intros Hmiss.
  assert (H : getBytes path (pkg, w) = (Throw (path_not_found path), (pkg, w))).
  { rewrite getBytes_unfold. by rewrite bool_decide_eq_false_2. }
  rewrite H. cbn [snd]. split; [done|]. split; [done|].
  intros q Hq. by rewrite returned_bytes_getBytes.
Qed.

(** C3 -- the file index of an opened package is the list the reader
    reported for the bytes of the source, in the order of that list;
    [list()] returns it without changing the package or the world (no call
    into the reader, no decompression), and after any sequence of calls on
    the package it still returns the same list in the same order. *)
Theorem list_stable source wasmURL w pkg w' :
  open source wasmURL w = (Ok pkg, w') →
  (∃ data rd listJSON,
      source_bytes source w = Some data ∧
      ZstdReader_new data = Ok rd ∧
      fst (get_file_list rd) = Ok listJSON ∧
      JSON_parse (TextDecoder_decode listJSON) = Ok (fileIndex pkg))
  ∧ ∀ calls, let s := run calls (pkg, w') in
             list_ s = (Ok (fileIndex pkg), s).
Proof.
  intros Hopen. split.
  - destruct (open_Ok _ _ _ _ _ Hopen) as (data & rd & lj & ? & ? & Hl & ? & ?).
    exists data, rd, lj. by rewrite Hl.
  - intros calls s. unfold list_, gets. f_equal. f_equal.
    subst s. by rewrite run_fileIndex.
Qed.

(** [encode] of the read-only helper is a stub: it rejects with the
    not-implemented error and produces no archive.  The archives the reader
    opens are written outside the helper. *)
Lemma encode_rejects w : encode w = (Throw (Error encode_message), w).
Proof. reflexivity. Qed.

(** C7 -- [open] on a byte buffer ([Uint8Array] or [ArrayBuffer]) leaves
    every buffer of the heap, the supplied one included, with the bytes it
    had, whether it returns a package or throws. *)
Theorem open_keeps_buffers buf wasmURL w :
  heap (snd (open (SrcUint8Array buf) wasmURL w)) = heap w
  ∧ heap (snd (open (SrcArrayBuffer buf) wasmURL w)) = heap w.
Proof.
  assert (H : ∀ src, (src = SrcUint8Array buf ∨ src = SrcArrayBuffer buf) →
               heap (snd (open src wasmURL w)) = heap w).
  { intros src Hsrc. unfold open, mbind, Js_bind at 1.
    pose proof (ensureWasm_heap wasmURL w) as Hh.
    destruct (ensureWasm wasmURL w) as [[[]|e] w1]; cbn [snd] in *; [|done].
    unfold Js_bind.
    destruct Hsrc as [-> | ->]; unfold mret, Js_ret;
      by rewrite new_ZstPackage_world. }
  split; apply H; auto.
Qed.

(** C8 -- when [getURL(path)] has returned a URL, a later [getURL(path)]
    with no [dispose] in between (whatever other calls were made) returns
    the same URL and changes nothing: no object URL is created.  [dispose]
    empties the cache and revokes every URL that was in it. *)
Theorem getURL_cached path s url s1 calls :
  getURL path s = (Ok url, s1) →
  forallb (λ c, negb (is_dispose c)) calls = true →
  (let s2 := run calls s1 in getURL path s2 = (Ok url, s2))
  ∧ (∀ s3, let sd := snd (dispose s3) in
       urlCache (fst sd) = ∅
       ∧ ∀ p u, urlCache (fst s3) !! p = Some u →
                objectURLs (snd sd) !! u = None).
Proof.
  intros Hget Hnd. split.
  - intros s2. rewrite getURL_unfold.
    subst s2. rewrite (run_cache_kept calls s1 path url); [done|done|].
    by eapply getURL_cache_post.
  - intros s3 sd. split; [done|].
    intros p u Hin. subst sd. cbn.
    apply revoke_all_gone. by eapply cached_urls_elem.
Qed.

(** C10 -- [getText(path)] is the UTF-8 decoding of the bytes of the array
    [getBytes(path)] returns, leaves the state [getBytes(path)] leaves, and
    throws exactly when, and what, [getBytes(path)] throws. *)
Theorem getText_decodes_getBytes path s :
  fst (getText path s) = TextDecoder_decode <$> returned_bytes (getBytes path s)
  ∧ snd (getText path s) = snd (getBytes path s)
  ∧ (∀ e, fst (getText path s) = Throw e ↔ fst (getBytes path s) = Throw e).
Proof.
  split; [|split].
  - rewrite getText_unfold. unfold returned_bytes, read_buffer.
    destruct (getBytes path s) as [[arr|e] s1]; [|done].
    cbn. by destruct (heap (snd s1) !! arr).
  - apply getText_state.
  - intros e. rewrite getText_unfold.
    destruct (getBytes path s) as [[arr|e'] s1] eqn:Hg;
      [|cbn; split; congruence].
    apply getBytes_Ok in Hg as (_ & _ & bs & rd' & _ & ->).
    cbn. rewrite lookup_insert_eq. cbn. split; intros [=].
Qed.

(** C2 (as amended) -- after [dispose], [list()] still returns the file
    index; [getBytes(path)] throws the path-not-found error for a path that
    is not in the index and, for a listed path, hands the call to the freed
    reader and returns or throws what that reader does; the URL cache is
    empty. *)
Theorem after_dispose pkg w :
  let s' := snd (dispose (pkg, w)) in
  list_ s' = (Ok (fileIndex pkg), s')
  ∧ (∀ path, path ∉ fileIndex pkg →
       getBytes path s' = (Throw (path_not_found path), s'))
  ∧ (∀ path, path ∈ fileIndex pkg →
       returned_bytes (getBytes path s')
       = fst (extract_file path (free (reader pkg))))
  ∧ urlCache (fst s') = ∅.
Proof.
  intros s'. split; [done|]. split; [|split; [|done]].
  - intros path Hmiss. subst s'. unfold dispose, modify. cbn [fst snd].
    rewrite getBytes_unfold. cbn. by rewrite bool_decide_eq_false_2.
  - intros path Hin. subst s'. by rewrite returned_bytes_getBytes.
Qed.

End PackageProperties.

(* ========================================================================= *)
(** * Text: UTF-8 and JSON                                                   *)
(* ========================================================================= *)

Lemma in_range_true lo hi b :
  in_range lo hi b = true ↔ lo <= Byte.to_N b <= hi.
Proof. unfold in_range. rewrite andb_true_iff, !N.leb_le. done. Qed.

Lemma in_range_false lo hi b :
  in_range lo hi b = false ↔ ¬ (lo <= Byte.to_N b <= hi).
Proof. rewrite <- in_range_true. by destruct (in_range lo hi b). Qed.

Ltac ranges :=
  repeat match goal with
  | H : in_range _ _ _ = true |- _ => apply in_range_true in H
  | H : in_range _ _ _ = false |- _ => apply in_range_false in H
  end.

(** A byte is outside, respectively inside, a range, by arithmetic on the
    ranges known for it. *)
Ltac off_range := apply in_range_false; ranges; lia.
Ltac on_range := apply in_range_true; ranges; lia.

Lemma utf8_decode_one b0 r :
  in_range 0x00 0x7F b0 = true →
  utf8_decode (b0 :: r) = String (ch b0) (utf8_decode r).
Proof. intros H. cbn [utf8_decode]. by rewrite H. Qed.

Lemma utf8_decode_two b0 b1 r :
  in_range 0xC2 0xDF b0 = true → in_range 0x80 0xBF b1 = true →
  utf8_decode (b0 :: b1 :: r) = String (ch b0) (String (ch b1) (utf8_decode r)).
Proof.
  intros H0 H1. cbn [utf8_decode].
  assert (in_range 0x00 0x7F b0 = false) as -> by off_range.
  by rewrite H0, H1.
Qed.

Lemma utf8_decode_three b0 b1 b2 r :
  in_range 0xE0 0xEF b0 = true → in_range (lo3 b0) (hi3 b0) b1 = true →
  in_range 0x80 0xBF b2 = true →
  utf8_decode (b0 :: b1 :: b2 :: r)
  = String (ch b0) (String (ch b1) (String (ch b2) (utf8_decode r))).
Proof.
  intros H0 H1 H2. cbn [utf8_decode].
  assert (in_range 0x00 0x7F b0 = false) as -> by off_range.
  assert (in_range 0xC2 0xDF b0 = false) as -> by off_range.
  rewrite H0. fold (lo3 b0) (hi3 b0). by rewrite H1, H2.
Qed.

Lemma utf8_decode_four b0 b1 b2 b3 r :
  in_range 0xF0 0xF4 b0 = true → in_range (lo4 b0) (hi4 b0) b1 = true →
  in_range 0x80 0xBF b2 = true → in_range 0x80 0xBF b3 = true →
  utf8_decode (b0 :: b1 :: b2 :: b3 :: r)
  = String (ch b0) (String (ch b1) (String (ch b2) (String (ch b3) (utf8_decode r)))).
Proof.
  intros H0 H1 H2 H3. cbn [utf8_decode].
  assert (in_range 0x00 0x7F b0 = false) as -> by off_range.
  assert (in_range 0xC2 0xDF b0 = false) as -> by off_range.
  assert (in_range 0xE0 0xEF b0 = false) as -> by off_range.
  rewrite H0. fold (lo4 b0) (hi4 b0). by rewrite H1, H2, H3.
Qed.

(** Decoding well-formed UTF-8 returns the text the bytes spell. *)
Lemma utf8_decode_wf bs : wf_utf8 bs → utf8_decode bs = string_of_list_byte bs.
Proof.
  induction 1 as [|b0 r H0 _ IH|b0 b1 r H0 H1 _ IH|b0 b1 b2 r H0 H1 H2 _ IH
                  |b0 b1 b2 b3 r H0 H1 H2 H3 _ IH].
  - done.
  - rewrite utf8_decode_one by done. by rewrite IH.
  - rewrite utf8_decode_two by done. by rewrite IH.
  - rewrite utf8_decode_three by done. by rewrite IH.
  - rewrite utf8_decode_four by done. by rewrite IH.
Qed.

Lemma wf_utf8_app a b : wf_utf8 a → wf_utf8 b → wf_utf8 (a ++ b).
Proof.
  induction 1; intros Hb; cbn;
    [done|apply wf_one|apply wf_two|apply wf_three|apply wf_four]; auto.
Qed.

(** The checker accepts well-formed sequences only. *)
Lemma utf8_valid_wf bs : utf8_valid bs = true → wf_utf8 bs.
Proof.
  remember (length bs) as n eqn:Hn. revert bs Hn.
  induction n as [n IH] using lt_wf_ind. intros bs -> Hv.
  destruct bs as [|b0 r]; [constructor|].
  cbn [utf8_valid] in Hv.
  destruct (in_range 0x00 0x7F b0) eqn:H1.
  { constructor; [done|]. eapply IH; [|done|done]. cbn; lia. }
  destruct (in_range 0xC2 0xDF b0) eqn:H2.
  { destruct r as [|b1 r1]; [done|]. apply andb_true_iff in Hv as [Hb1 Hv].
    constructor; [done..|]. eapply IH; [|done|done]. cbn; lia. }
  destruct (in_range 0xE0 0xEF b0) eqn:H3.
  { destruct r as [|b1 [|b2 r2]]; [done..|].
    apply andb_true_iff in Hv as [Hv Hr]. apply andb_true_iff in Hv as [Hb1 Hb2].
    constructor; [done..|]. eapply IH; [|done|done]. cbn; lia. }
  destruct (in_range 0xF0 0xF4 b0) eqn:H4; [|done].
  destruct r as [|b1 [|b2 [|b3 r3]]]; [done..|].
  apply andb_true_iff in Hv as [Hv Hr]. apply andb_true_iff in Hv as [Hv Hb3].
  apply andb_true_iff in Hv as [Hb1 Hb2].
  constructor; [done..|]. eapply IH; [|done|done]. cbn; lia.
Qed.

Lemma append_nil (s : string) : EmptyString +:+ s = s.
Proof. reflexivity. Qed.

Lemma append_cons c (a b : string) : String c a +:+ b = String c (a +:+ b).
Proof. reflexivity. Qed.

Lemma append_assoc (a b c : string) : (a +:+ b) +:+ c = a +:+ (b +:+ c).
Proof.
  induction a as [|x a IH]; [by rewrite !append_nil|].
  rewrite !append_cons. by rewrite IH.
Qed.

Lemma list_byte_of_string_cons c s :
  list_byte_of_string (String c s) = byte_of_ascii c :: list_byte_of_string s.
Proof. reflexivity. Qed.

Lemma string_of_list_byte_cons b bs :
  string_of_list_byte (b :: bs) = String (ch b) (string_of_list_byte bs).
Proof. reflexivity. Qed.

Lemma list_byte_of_string_app a b :
  list_byte_of_string (a +:+ b) = list_byte_of_string a ++ list_byte_of_string b.
Proof.
  induction a as [|x a IH]; [done|].
  rewrite append_cons, !list_byte_of_string_cons, IH. done.
Qed.

(** The JSON escape of an ASCII character is ASCII. *)
Lemma wf_quote_char_low b :
  in_range 0x00 0x7F b = true →
  wf_utf8 (list_byte_of_string (quote_char (ch b))).
Proof.
  destruct b; intros H; try discriminate H; clear H;
    vm_compute; repeat (apply wf_one; [reflexivity|]); apply wf_nil.
Qed.

(** A byte outside ASCII is not escaped. *)
Lemma quote_char_high b :
  in_range 0x80 0xFF b = true → quote_char (ch b) = String (ch b) EmptyString.
Proof. destruct b; intros H; try discriminate H; reflexivity. Qed.

Lemma wf_quote_chars_bytes bs :
  wf_utf8 bs → wf_utf8 (list_byte_of_string (quote_chars (string_of_list_byte bs))).
Proof.
  assert (Hhigh : ∀ b s, in_range 0x80 0xFF b = true →
            list_byte_of_string (quote_chars (String (ch b) s))
            = b :: list_byte_of_string (quote_chars s)).
  { intros b s Hb. cbn [quote_chars]. rewrite quote_char_high by done.
    rewrite append_cons, append_nil.
    by rewrite list_byte_of_string_cons, byte_of_ascii_of_byte. }
  induction 1 as [|b0 r H0 _ IH|b0 b1 r H0 H1 _ IH|b0 b1 b2 r H0 H1 H2 _ IH
                  |b0 b1 b2 b3 r H0 H1 H2 H3 _ IH];
    rewrite ?string_of_list_byte_cons.
  - apply wf_nil.
  - cbn [quote_chars]. rewrite list_byte_of_string_app.
    apply wf_utf8_app; [by apply wf_quote_char_low|done].
  - rewrite !Hhigh by on_range. by apply wf_two.
  - rewrite !Hhigh by (unfold lo3, hi3 in *; repeat case_match; on_range).
    by apply wf_three.
  - rewrite !Hhigh by (unfold lo4, hi4 in *; repeat case_match; on_range).
    by apply wf_four.
Qed.

Lemma wf_quote s :
  wf_utf8 (list_byte_of_string s) → wf_utf8 (list_byte_of_string (quote s)).
Proof.
  intros Hs. unfold quote. rewrite list_byte_of_string_cons.
  apply wf_one; [reflexivity|]. rewrite list_byte_of_string_app.
  apply wf_utf8_app.
  - rewrite <- (string_of_list_byte_of_string s). by apply wf_quote_chars_bytes.
  - apply wf_one; [reflexivity|apply wf_nil].
Qed.

Lemma wf_join_quoted l :
  Forall (λ s, wf_utf8 (list_byte_of_string s)) l →
  wf_utf8 (list_byte_of_string (join_quoted l)).
Proof.
  induction 1 as [|s l Hs Hl IH]; [apply wf_nil|].
  destruct l as [|s' l']; [by apply wf_quote|].
  cbn [join_quoted]. rewrite !list_byte_of_string_app.
  apply wf_utf8_app; [by apply wf_quote|].
  apply wf_utf8_app; [|done]. apply wf_one; [reflexivity|apply wf_nil].
Qed.

(** The file list the engine hands out reads back as the text it spells. *)
Lemma TextDecoder_decode_stringify l :
  Forall (λ s, wf_utf8 (list_byte_of_string s)) l →
  TextDecoder_decode (list_byte_of_string (JSON_stringify l)) = JSON_stringify l.
Proof.
  intros Hl. unfold TextDecoder_decode.
  assert (Hwf : wf_utf8 (list_byte_of_string (JSON_stringify l))).
  { unfold JSON_stringify. rewrite !list_byte_of_string_app.
    apply wf_utf8_app; [apply wf_one; [reflexivity|apply wf_nil]|].
    apply wf_utf8_app; [by apply wf_join_quoted|].
    apply wf_one; [reflexivity|apply wf_nil]. }
  assert (Hbom : strip_bom (list_byte_of_string (JSON_stringify l))
                 = list_byte_of_string (JSON_stringify l)).
  { unfold JSON_stringify. rewrite append_cons, append_nil, list_byte_of_string_cons.
    generalize (list_byte_of_string (join_quoted l +:+ "]")). intros r.
    destruct r as [|b1 [|b2 r]]; reflexivity. }
  rewrite Hbom, utf8_decode_wf by done. apply string_of_list_byte_of_string.
Qed.

Lemma JSON_go_quote_char c acc out rest :
  JSON_go (JStr acc) out (quote_char c +:+ rest)
  = JSON_go (JStr (c :: acc)) out rest.
Proof. destruct c as [[] [] [] [] [] [] [] []]; reflexivity. Qed.

Lemma JSON_go_quote_chars s acc out rest :
  JSON_go (JStr acc) out (quote_chars s +:+ String dquote rest)
  = JSON_go JAfter (string_of_rev (rev (list_ascii_of_string s) ++ acc) :: out) rest.
Proof.
  revert acc. induction s as [|c s IH]; intros acc; [reflexivity|].
  cbn [quote_chars]. rewrite append_assoc, JSON_go_quote_char, IH.
  cbn [list_ascii_of_string rev]. by rewrite <- app_assoc.
Qed.

Lemma JSON_go_quote st s out rest :
  st = JOpen ∨ st = JComma →
  JSON_go st out (quote s +:+ rest) = JSON_go JAfter (s :: out) rest.
Proof.
  intros Hst. unfold quote. rewrite append_cons, append_assoc, append_cons, append_nil.
  transitivity (JSON_go (JStr []) out (quote_chars s +:+ String dquote rest)).
  { destruct Hst as [-> | ->]; reflexivity. }
  rewrite JSON_go_quote_chars. unfold string_of_rev.
  by rewrite app_nil_r, rev_involutive, string_of_list_ascii_of_string.
Qed.

Lemma JSON_go_join l out st :
  l ≠ [] → st = JOpen ∨ st = JComma →
  JSON_go st out (join_quoted l +:+ "]") = Some (rev out ++ l).
Proof.
  revert out st. induction l as [|s l IH]; intros out st Hne Hst; [done|].
  destruct l as [|s' l'].
  - cbn [join_quoted]. rewrite JSON_go_quote by done. reflexivity.
  - change (join_quoted (s :: s' :: l'))
      with (quote s +:+ "," +:+ join_quoted (s' :: l')).
    rewrite !append_assoc, JSON_go_quote by done.
    change ("," +:+ join_quoted (s' :: l') +:+ "]")
      with (String "," (join_quoted (s' :: l') +:+ "]")).
    transitivity (JSON_go JComma (s :: out) (join_quoted (s' :: l') +:+ "]"));
      [reflexivity|].
    rewrite IH by auto. cbn [rev]. by rewrite <- app_assoc.
Qed.

(** Parsing the JSON text of a list of strings gives the list back. *)
Lemma JSON_parse_stringify l : JSON_parse (JSON_stringify l) = Ok l.
Proof.
  unfold JSON_parse, JSON_stringify.
  change ("[" +:+ join_quoted l +:+ "]") with (String "[" (join_quoted l +:+ "]")).
  transitivity (match JSON_go JOpen [] (join_quoted l +:+ "]") with
                | Some l' => Ok l'
                | None => Throw (SyntaxError "Unexpected token in JSON")
                end); [reflexivity|].
  destruct l as [|s l]; [reflexivity|].
  by rewrite JSON_go_join by auto.
Qed.

(* ========================================================================= *)
(** * Properties of the reader engine and of the helper over it              *)
(* ========================================================================= *)

Section EngineProperties.
Context {format : ArchiveFormat}.
Implicit Types (pkg : @ZstPackage spec_engine) (w : World) (path : string).

Lemma overlap_false a b :
  overlap a b = false → ∀ k, ¬ (in_frame a k ∧ in_frame b k).
Proof.
  unfold overlap, in_frame. intros Hov k [Ha Hb].
  rewrite !andb_false_iff, !N.ltb_ge in Hov. lia.
Qed.

Lemma no_overlap_disjoint idx :
  no_overlap idx = true →
  ∀ i j a b, (i < j)%nat → idx !! i = Some a → idx !! j = Some b →
  ∀ k, ¬ (in_frame a k ∧ in_frame b k).
Proof.
  induction idx as [|e idx IH]; intros Hno i j a b Hij Ha Hb; [done|].
  cbn [no_overlap] in Hno. apply andb_true_iff in Hno as [He Hno].
  destruct j as [|j]; [lia|]. cbn in Hb.
  destruct i as [|i].
  - cbn in Ha. injection Ha as ->.
    apply overlap_false. rewrite forallb_forall in He.
    apply negb_true_iff, He, list_elem_of_In, list_elem_of_lookup. eauto.
  - cbn in Ha. eapply IH; [done| |done|done]. lia.
Qed.

Lemma validate_index_Ok total idx :
  validate_index total idx = Ok () → index_valid total idx.
Proof.
  unfold validate_index.
  destruct (forallb (in_bounds total) idx) eqn:Hb; [|done].
  destruct (no_overlap idx) eqn:Ho; [|done].
  destruct (unique_paths idx) eqn:Hu; [|done].
  intros _. rewrite forallb_forall in Hb. split.
  - intros e He. apply N.leb_le, Hb. by apply list_elem_of_In.
  - by apply no_overlap_disjoint.
  - by apply bool_decide_eq_true in Hu.
Qed.

Lemma validate_index_Throw total idx e :
  validate_index total idx = Throw e → ∃ cause, e = EngineError (OpenError cause).
Proof.
  unfold validate_index, refuse. repeat case_match; intros [=]; eauto.
Qed.

Lemma parse_index_Throw data e :
  parse_index data = Throw e → ∃ cause, e = EngineError (OpenError cause).
Proof.
  unfold parse_index, refuse. repeat case_match; intros [=]; eauto.
Qed.

(** An index is read only behind the magic bytes and the supported
    version. *)
Lemma parse_index_header data idx : parse_index data = Ok idx → header_ok data.
Proof.
  unfold parse_index, header_ok.
  case_bool_decide as Hm; [|done]. cbn [negb].
  destruct (read_uint (drop (length magic) data)) as [[version r1]|]; [|done].
  destruct (version =? supported_version) eqn:Hv; [|done].
  apply N.eqb_eq in Hv as ->. eauto.
Qed.

(** The paths of an index that was read from an archive laid out as
    declared. *)
Lemma paths_utf8_wf data idx :
  paths_utf8 data → parse_index data = Ok idx →
  Forall (λ p, wf_utf8 (list_byte_of_string p)) (entry_path <$> idx).
Proof.
  unfold paths_utf8. intros Hu Hp. rewrite Hp in Hu.
  rewrite forallb_forall in Hu.
  apply Forall_forall. intros p Hin.
  apply list_elem_of_fmap in Hin as (e & -> & He).
  apply utf8_valid_wf, Hu. by apply list_elem_of_In.
Qed.

(** The constructor of the reader either has read a valid index or refuses
    the archive with an [OpenError]. *)
Lemma open_archive_cases data :
  (∃ idx, parse_index data = Ok idx
          ∧ index_valid (N.of_nat (length data)) idx
          ∧ open_archive data
            = Ok {| archive := data; index := idx; closed := false |})
  ∨ (∃ cause, open_archive data = Throw (EngineError (OpenError cause))).
Proof.
  unfold open_archive, mbind, Result_bind.
  destruct (parse_index data) as [idx|e] eqn:Hp.
  - destruct (validate_index (N.of_nat (length data)) idx) as [[]|e] eqn:Hv.
    + left. exists idx. split; [done|]. split; [|done].
      by apply validate_index_Ok.
    + right. apply validate_index_Throw in Hv as [cause ->]. eauto.
  - right. apply parse_index_Throw in Hp as [cause ->]. eauto.
Qed.

Lemma set_wasmInit_id w r : wasmInit w = Some r → set_wasmInit (Some r) w = w.
Proof. destruct w; cbn; by intros ->. Qed.

Lemma ensureWasm_usable wasmURL w :
  wasm_usable w →
  ensureWasm wasmURL w = (Ok (), set_wasmInit (Some (Ok ())) w).
Proof.
  intros [Hw|Hw]; unfold ensureWasm; rewrite Hw; [done|].
  by rewrite set_wasmInit_id.
Qed.

(** [open] on a buffer holding [data], unfolded over the engine. *)
Lemma open_buffer source buf wasmURL w data :
  source = SrcUint8Array buf ∨ source = SrcArrayBuffer buf →
  heap w !! buf = Some data → wasm_usable w → paths_utf8 data →
  open source wasmURL w =
  (match open_archive data with
   | Ok rd => Ok {| reader := rd; fileIndex := entry_path <$> index rd;
                    urlCache := ∅ |}
   | Throw e => Throw e
   end, set_wasmInit (Some (Ok ())) w).
Proof.
  intros Hsrc Hbuf Hw Hu. unfold open, mbind, Js_bind at 1.
  rewrite ensureWasm_usable by done.
  assert (Hnew : new_ZstPackage buf (set_wasmInit (Some (Ok ())) w) =
    (match open_archive data with
     | Ok rd => Ok {| reader := rd; fileIndex := entry_path <$> index rd;
                      urlCache := ∅ |}
     | Throw e => Throw e
     end, set_wasmInit (Some (Ok ())) w)).
  { unfold new_ZstPackage, mbind, Js_bind, read_buffer, lift. cbn [heap set_wasmInit].
    rewrite Hbuf. cbn [ZstdReader_new spec_engine].
    destruct (open_archive_cases data) as [(idx & Hp & Hv & ->)|(cause & ->)]; [|done].
    cbn [get_file_list spec_engine file_list closed index].
    rewrite TextDecoder_decode_stringify, JSON_parse_stringify; [done|].
    by eapply paths_utf8_wf. }
  unfold Js_bind. destruct Hsrc as [-> | ->]; exact Hnew.
Qed.

Lemma lookup_entry_elem path idx e :
  lookup_entry path idx = Some e → e ∈ idx ∧ entry_path e = path.
Proof.
  unfold lookup_entry. intros Hf. apply find_some in Hf as [Hin He].
  split; [by apply list_elem_of_In|]. by apply bool_decide_eq_true in He.
Qed.

Lemma lookup_entry_listed path idx :
  path ∈ entry_path <$> idx → ∃ e, lookup_entry path idx = Some e.
Proof.
  intros Hin. apply list_elem_of_fmap in Hin as (e & -> & He).
  destruct (lookup_entry (entry_path e) idx) as [e'|] eqn:Hf; [eauto|].
  unfold lookup_entry in Hf.
  apply list_elem_of_In in He.
  pose proof (find_none _ _ Hf e He) as Hne. cbv beta in Hne.
  by rewrite bool_decide_eq_true_2 in Hne.
Qed.

Lemma slice_length off len (bs : bytes) :
  off + len <= N.of_nat (length bs) →
  length (slice off len bs) = N.to_nat len.
Proof. intros H. unfold slice. rewrite length_take, length_drop. lia. Qed.

(** Over the engine, a call of [getBytes] changes the heap only. *)
Lemma spec_getBytes_state path (s : @PkgState spec_engine) :
  ∃ h, snd (getBytes path s) = (fst s, set_heap h (snd s)).
Proof.
  destruct s as [pkg w]. rewrite getBytes_unfold. cbn [extract_file spec_engine].
  destruct (bool_decide _); [destruct (extract path (reader pkg))|]; cbn [fst snd].
  - rewrite set_reader_id. eauto.
  - rewrite set_reader_id. exists (heap w). by rewrite set_heap_id.
  - exists (heap w). by rewrite set_heap_id.
Qed.

Lemma spec_exec_reader c (s : @PkgState spec_engine) :
  is_dispose c = false → reader (fst (exec c s)) = reader (fst s).
Proof.
  intros Hc.
  destruct c as [|p|p|p|p| |arr content]; cbn [exec]; try done.
  - destruct (spec_getBytes_state p s) as (h & ->). done.
  - rewrite getBlob_state. destruct (spec_getBytes_state p s) as (h & ->). done.
  - rewrite getURL_unfold. destruct (urlCache (fst s) !! p); [done|].
    pose proof (getBlob_state p s) as Hs.
    destruct (getBlob p s) as [[blob|e] s1]; cbn [fst snd] in *; subst s1;
      destruct (spec_getBytes_state p s) as (h & ->); done.
  - rewrite getText_state. destruct (spec_getBytes_state p s) as (h & ->). done.
Qed.

Lemma spec_run_reader calls (s : @PkgState spec_engine) :
  forallb (λ c, negb (is_dispose c)) calls = true →
  reader (fst (run calls s)) = reader (fst s).
Proof.
  revert s. induction calls as [|c calls IH]; intros s Hnd; [done|].
  cbn in Hnd. apply andb_true_iff in Hnd as [Hc Hnd].
  cbn. unfold run in IH. rewrite IH by done.
  apply spec_exec_reader. by destruct (is_dispose c).
Qed.

(** What [getBytes] returns is decided by the file index and the reader. *)
Lemma returned_bytes_decided path (s1 s2 : @PkgState spec_engine) :
  fileIndex (fst s1) = fileIndex (fst s2) →
  reader (fst s1) = reader (fst s2) →
  returned_bytes (getBytes path s1) = returned_bytes (getBytes path s2).
Proof.
  intros Hi Hr. destruct (decide (path ∈ fileIndex (fst s1))) as [Hin|Hout].
  - rewrite !returned_bytes_getBytes by congruence. by rewrite Hr.
  - destruct s1 as [p1 w1], s2 as [p2 w2]. cbn [fst] in *.
    rewrite !getBytes_unfold.
    rewrite !bool_decide_eq_false_2 by congruence. done.
Qed.

(** C4 -- over the reader engine, [getBytes(path)] returns the same bytes
    whatever calls came before it (extractions of any paths in any order,
    repeated or not, other reads, writes of the caller into any buffer, the
    returned arrays included), as long as the package was not disposed.  A
    call leaves the reader and the file index as they were (nothing is
    memoised), and the array it returns is a buffer that did not exist
    before the call. *)
Theorem getBytes_repeatable pkg w calls path :
  forallb (λ c, negb (is_dispose c)) calls = true →
  let s := run calls (pkg, w) in
  returned_bytes (getBytes path s) = returned_bytes (getBytes path (pkg, w))
  ∧ fst (snd (getBytes path s)) = fst s
  ∧ reader (fst s) = reader pkg
  ∧ fileIndex (fst s) = fileIndex pkg
  ∧ (∀ arr s', getBytes path s = (Ok arr, s') → heap (snd s) !! arr = None).
Proof.
  intros Hnd s.
  assert (Hr : reader (fst s) = reader pkg) by (by apply spec_run_reader).
  assert (Hi : fileIndex (fst s) = fileIndex pkg) by apply run_fileIndex.
  split; [by apply returned_bytes_decided|].
  split; [by destruct (spec_getBytes_state path s) as (h & ->)|].
  split; [done|]. split; [done|].
  intros arr s' Hg. by apply getBytes_Ok in Hg as (_ & ? & _).
Qed.

(** After [dispose] the engine answers a listed path with [ClosedError]. *)
Lemma getBytes_after_dispose_closed pkg w path :
  path ∈ fileIndex pkg →
  fails_with_ClosedError (returned_bytes (getBytes path (snd (dispose (pkg, w))))).
Proof.
  intros Hin. unfold fails_with_ClosedError.
  by rewrite returned_bytes_getBytes.
Qed.

(** Extraction from a reader that is open: the bytes of the frame, or a
    decode or an integrity failure. *)
Lemma extract_listed path idx data :
  path ∈ entry_path <$> idx →
  extract_outcome path
    (extract path {| archive := data; index := idx; closed := false |}).
Proof.
  intros Hin. unfold extract. cbn [closed index archive].
  destruct (lookup_entry_listed _ _ Hin) as [e ->].
  unfold mbind, Result_bind, decode.
  destruct (decompress _) as [out|]; [|cbn; auto].
  destruct (_ =? _); [|cbn; auto].
  destruct (_ =? _)%nat; [done|].
  case_bool_decide; cbn; auto.
Qed.

(** A frame that decompresses to its declared length (and digest) is what
    [getBytes] returns for its path. *)
Lemma getBytes_decodes_frame pkg w data path e content :
  ready data pkg →
  lookup_entry path (index (reader pkg)) = Some e →
  decompress (slice (compressed_offset e) (compressed_length e) data) = Some content →
  N.of_nat (length content) = decompressed_length e →
  (checksum_width = 0%nat ∨ digest content = checksum e) →
  returned_bytes (getBytes path (pkg, w)) = Ok content.
Proof.
  intros (idx & _ & _ & _ & Hrd & Hfi & _) Hl Hd Hlen Hsum.
  rewrite Hrd in Hl. cbn [index] in Hl.
  rewrite returned_bytes_getBytes.
  2:{ cbn [fst]. rewrite Hfi. apply lookup_entry_elem in Hl as [He <-].
      apply list_elem_of_fmap. eauto. }
  cbn [fst extract_file spec_engine]. rewrite Hrd.
  unfold extract. cbn [closed index archive]. rewrite Hl.
  unfold mbind, Result_bind, decode. rewrite Hd.
  rewrite (proj2 (N.eqb_eq _ _) Hlen).
  destruct Hsum as [-> | Hs]; [done|].
  destruct (_ =? _)%nat; [done|]. by rewrite bool_decide_eq_true_2.
Qed.

(** Extraction of an entry of an open reader, by what its frame holds. *)
Lemma extract_content_checked path idx data e :
  lookup_entry path idx = Some e →
  content_checked e (slice (compressed_offset e) (compressed_length e) data)
    (extract path {| archive := data; index := idx; closed := false |}).
Proof.
  intros Hl. unfold extract. cbn [closed index archive]. rewrite Hl.
  unfold mbind, Result_bind, decode, content_checked.
  destruct (decompress _) as [out|].
  - destruct (N.of_nat (length out) =? decompressed_length e) eqn:Hlen.
    + apply N.eqb_eq in Hlen.
      destruct (checksum_width =? 0)%nat eqn:Hw.
      * apply Nat.eqb_eq in Hw.
        split; [by intros ? [= <-]|]. split; [done|].
        intros [[=]|(out' & [= <-] & Hne)]. done.
      * apply Nat.eqb_neq in Hw. case_bool_decide as Hd.
        -- split; [by intros ? [= <-]|]. split; [by intros ? [= <-]|].
           intros [[=]|(out' & [= <-] & Hne)]. done.
        -- split; [intros ? [= <-] _ [|]; done|]. split; [done|].
           intros [[=]|(out' & [= <-] & Hne)]. done.
    + apply N.eqb_neq in Hlen.
      split; [by intros ? [= <-]|]. split; [by intros ? [= <-]|]. done.
  - split; [done|]. split; done.
Qed.

(** C5 -- over the reader engine, for an archive whose path fields hold
    UTF-8 as the layout declares, [open] on a byte buffer either throws an
    [OpenError], no package being returned, or returns a package that is
    ready: the archive starts with the magic bytes and the supported
    version, the index was read from the bytes and satisfies every rule of
    the open-time validation (frames inside the archive and pairwise
    disjoint, paths unique), and the file index lists its paths.  Every
    frame can then be sliced in full.  What the index declares about the
    content of a frame is not settled by [open] but by the extraction: a
    path that is not listed ends with the path-not-found error; a listed
    path has an entry, and [getBytes] returns the decompressed frame when
    it has the declared length and checksum, throws a [DecodeError] when the
    frame does not decompress to the declared length, and an
    [IntegrityError] when the checksum differs. *)
Theorem open_all_or_nothing source buf wasmURL w data :
  source = SrcUint8Array buf ∨ source = SrcArrayBuffer buf →
  heap w !! buf = Some data →
  wasm_usable w →
  paths_utf8 data →
  let r := open source wasmURL w in
  (∃ cause, fst r = Throw (EngineError (OpenError cause)))
  ∨ (∃ pkg, fst r = Ok pkg
       ∧ ready data pkg
       ∧ (∀ e, e ∈ index (reader pkg) →
            length (slice (compressed_offset e) (compressed_length e) data)
            = N.to_nat (compressed_length e))
       ∧ (∀ path, extract_outcome path (fst (getBytes path (pkg, snd r))))
       ∧ (∀ path, path ∉ fileIndex pkg →
            fst (getBytes path (pkg, snd r)) = Throw (path_not_found path))
       ∧ (∀ path, path ∈ fileIndex pkg →
            ∃ e, e ∈ index (reader pkg) ∧ entry_path e = path
                 ∧ content_checked e
                     (slice (compressed_offset e) (compressed_length e) data)
                     (returned_bytes (getBytes path (pkg, snd r))))).
Proof.
  intros Hsrc Hbuf Hw Hu r. subst r.
  rewrite (open_buffer _ _ _ _ _ Hsrc Hbuf Hw Hu).
  cbn [fst snd].
  destruct (open_archive_cases data) as [(idx & Hp & Hv & ->)|(cause & ->)];
    [right|left; eauto].
  eexists. split; [done|]. split; [|split; [|split; [|split]]].
  - exists idx. split; [by eapply parse_index_header|]. by cbn.
  - intros e He. cbn [reader index] in He. apply slice_length. by apply Hv.
  - intros path. rewrite getBytes_unfold. cbn [fileIndex reader index].
    case_bool_decide as Hin; [|cbn; auto].
    cbn [extract_file spec_engine].
    pose proof (extract_listed path idx data Hin) as Hout.
    destruct (extract path _) as [bs|e]; [done|exact Hout].
  - intros path Hout. rewrite getBytes_unfold. cbn [fileIndex] in *.
    by rewrite bool_decide_eq_false_2.
  - intros path Hin. cbn [fileIndex reader index] in *.
    destruct (lookup_entry_listed _ _ Hin) as [e Hl].
    exists e. destruct (lookup_entry_elem _ _ _ Hl) as [He Hpe].
    split; [done|]. split; [done|].
    rewrite returned_bytes_getBytes by done.
    cbn [fst reader extract_file spec_engine].
    by apply extract_content_checked.
Qed.

End EngineProperties.

(* ========================================================================= *)
(** * Archives written by an encoder                                         *)
(* ========================================================================= *)

Section EncoderProperties.
Context {format : ArchiveFormat}.
Variable compress : bytes → bytes.

Lemma byte_of_N_small n : n < 256 → Byte.to_N (default x00 (Byte.of_N n)) = n.
Proof.
  intros Hn. destruct (Byte.of_N n) as [b|] eqn:Hb.
  - cbn. by apply Byte.to_of_N.
  - apply Byte.of_N_None_iff in Hb. lia.
Qed.

Lemma le_encode_length width n : length (le_encode width n) = width.
Proof. revert n. induction width as [|width IH]; intros n; cbn; [done|]. by rewrite IH. Qed.

Lemma le_decode_encode width n :
  n < 256 ^ N.of_nat width → le_decode (le_encode width n) = n.
Proof.
  revert n. induction width as [|width IH]; intros n Hn.
  - cbn in *. lia.
  - cbn [le_encode le_decode].
    rewrite byte_of_N_small by (apply N.mod_lt; lia).
    rewrite IH.
    + pose proof (N.div_mod n 256). lia.
    + rewrite Nat2N.inj_succ, N.pow_succ_r' in Hn.
      apply N.Div0.div_lt_upper_bound. lia.
Qed.

Lemma read_bytes_app (bs rest : bytes) :
  read_bytes (N.of_nat (length bs)) (bs ++ rest) = Some (bs, rest).
Proof.
  unfold read_bytes. rewrite length_app.
  rewrite (proj2 (N.leb_le _ _)) by lia.
  rewrite Nat2N.id, take_app_length, drop_app_length. done.
Qed.

Lemma read_uint_write n rest :
  fits n = true → read_uint (write_uint n ++ rest) = Some (n, rest).
Proof.
  unfold fits, read_uint, write_uint. intros Hn. apply N.ltb_lt in Hn.
  rewrite <- (le_encode_length uint_width n) at 1.
  rewrite read_bytes_app. by rewrite le_decode_encode.
Qed.

Lemma read_entry_write e rest :
  entry_fits e → read_entry (write_entry e ++ rest) = Some (e, rest).
Proof.
  intros (Hp & Ho & Hc & Hd & Hs). unfold read_entry, write_entry.
  rewrite <- !app_assoc.
  rewrite read_uint_write by done. cbn [mbind option_bind]. 
  rewrite read_bytes_app. cbn [mbind option_bind].
  do 3 (rewrite read_uint_write by done; cbn [mbind option_bind]).
  rewrite <- Hs, read_bytes_app. cbn [mbind option_bind].
  rewrite string_of_list_byte_of_string. by destruct e.
Qed.

Lemma read_entries_write idx rest :
  Forall entry_fits idx →
  read_entries (length idx) (concat (write_entry <$> idx) ++ rest) = Some idx.
Proof.
  induction 1 as [|e idx He _ IH]; [done|].
  cbn [length fmap list_fmap concat read_entries].
  rewrite <- app_assoc, read_entry_write by done. cbn [mbind option_bind].
  by rewrite IH.
Qed.

Lemma parse_index_write idx frames :
  fits supported_version = true → fits (N.of_nat (length idx)) = true →
  Forall entry_fits idx →
  parse_index (write_archive idx frames) = Ok idx.
Proof.
  intros Hv Hn Hidx. unfold parse_index, write_archive.
  rewrite take_app_length, bool_decide_eq_true_2 by done. cbn [negb].
  rewrite drop_app_length, read_uint_write by done.
  rewrite N.eqb_refl. cbn [negb].
  rewrite read_uint_write by done.
  rewrite Nat2N.id, read_entries_write by done. done.
Qed.

Lemma layout_paths off files : entry_path <$> layout compress off files = files.*1.
Proof.
  revert off. induction files as [|[p c] files IH]; intros off; [done|].
  cbn. by rewrite IH.
Qed.

Lemma layout_length off files : length (layout compress off files) = length files.
Proof.
  revert off. induction files as [|[p c] files IH]; intros off; [done|].
  cbn. by rewrite IH.
Qed.

Lemma write_uint_length n : length (write_uint n) = uint_width.
Proof. apply le_encode_length. Qed.

(** The bytes of the entries take the same room wherever the frames are. *)
Lemma layout_entries_length off off' files :
  length (concat (write_entry <$> layout compress off files))
  = length (concat (write_entry <$> layout compress off' files)).
Proof.
  revert off off'. induction files as [|[p c] files IH]; intros off off'; [done|].
  cbn [layout fmap list_fmap concat]. rewrite !length_app.
  rewrite (IH _ (off' + N.of_nat (length (compress c)))).
  unfold write_entry. cbn [entry_path compressed_offset compressed_length
    decompressed_length checksum].
  rewrite !length_app, !write_uint_length. done.
Qed.

Lemma write_archive_index idx fr : write_archive idx fr = index_bytes idx ++ fr.
Proof. unfold write_archive, index_bytes. by rewrite <- !app_assoc. Qed.

Lemma index_bytes_length off files :
  length (index_bytes (layout compress off files)) = index_size compress files.
Proof.
  unfold index_size, index_bytes. rewrite !length_app, !write_uint_length.
  by rewrite (layout_entries_length off 0).
Qed.

Lemma encode_archive_length files :
  length (encode_archive compress files)
  = (index_size compress files + length (frames compress files))%nat.
Proof.
  unfold encode_archive. by rewrite write_archive_index, length_app, index_bytes_length.
Qed.

(** The frames lie one after the other from [off] on. *)
Lemma layout_bounds off files e :
  e ∈ layout compress off files →
  off <= compressed_offset e
  ∧ compressed_offset e + compressed_length e
    <= off + N.of_nat (length (frames compress files)).
Proof.
  revert off. induction files as [|[p c] files IH]; intros off He.
  - by apply elem_of_nil in He.
  - cbn [layout] in He. cbn [frames]. rewrite length_app.
    apply elem_of_cons in He as [-> | He].
    + cbn. lia.
    + apply IH in He. lia.
Qed.

Lemma layout_no_overlap off files : no_overlap (layout compress off files) = true.
Proof.
  revert off. induction files as [|[p c] files IH]; intros off; [done|].
  cbn [layout no_overlap]. rewrite IH, andb_true_r.
  apply forallb_forall. intros x Hx. apply list_elem_of_In, layout_bounds in Hx.
  apply negb_true_iff. unfold overlap. cbn [compressed_offset compressed_length].
  rewrite !andb_false_iff, !N.ltb_ge. lia.
Qed.

(** The entry of a file and the bytes its range holds. *)
Lemma layout_extract (prefix : bytes) files path content :
  NoDup files.*1 → (path, content) ∈ files →
  ∃ e, lookup_entry path (layout compress (N.of_nat (length prefix)) files) = Some e
       ∧ slice (compressed_offset e) (compressed_length e)
               (prefix ++ frames compress files) = compress content
       ∧ decompressed_length e = N.of_nat (length content)
       ∧ checksum e = stored_checksum content.
Proof.
  revert prefix. induction files as [|[p c] files IH]; intros prefix Hnd Hin.
  - by apply elem_of_nil in Hin.
  - cbn [fmap list_fmap fst] in Hnd. apply NoDup_cons in Hnd as [Hp Hnd].
    cbn [layout frames]. unfold lookup_entry. cbn [find entry_path].
    case_bool_decide as Heq.
    + subst p. apply elem_of_cons in Hin as [[= <-] | Hin].
      * eexists. split; [done|]. cbn [compressed_offset compressed_length
          decompressed_length checksum].
        split; [|done]. unfold slice. rewrite !Nat2N.id.
        by rewrite drop_app_length, take_app_length.
      * exfalso. apply Hp. apply list_elem_of_fmap. by exists (path, content).
    + apply elem_of_cons in Hin as [[= -> ->] | Hin]; [done|].
      destruct (IH (prefix ++ compress c) Hnd Hin) as (e & Hl & Hs & Hd & Hc).
      rewrite length_app, Nat2N.inj_add in Hl. rewrite <- app_assoc in Hs.
      eauto.
Qed.

Lemma layout_fits off files :
  (checksum_width = 0%nat ∨ ∀ b, length (digest b) = checksum_width) →
  fits (off + N.of_nat (length (frames compress files))) = true →
  forallb (λ f, fits (N.of_nat (length (list_byte_of_string (fst f))))
                && fits (N.of_nat (length (snd f)))) files = true →
  Forall entry_fits (layout compress off files).
Proof.
  intros Hsum. revert off.
  induction files as [|[p c] files IH]; intros off Hoff Hf; [constructor|].
  cbn [forallb fst snd] in Hf. apply andb_true_iff in Hf as [Hpc Hf].
  apply andb_true_iff in Hpc as [Hp Hc].
  cbn [frames] in Hoff. rewrite length_app in Hoff.
  unfold fits in Hoff. apply N.ltb_lt in Hoff.
  cbn [layout]. constructor.
  - unfold entry_fits. cbn [entry_path compressed_offset compressed_length
      decompressed_length checksum].
    split; [done|]. unfold fits.
    split; [apply N.ltb_lt; lia|]. split; [apply N.ltb_lt; lia|]. split; [done|].
    unfold stored_checksum. destruct Hsum as [Hz | Hd].
    + by rewrite Hz.
    + destruct (checksum_width =? 0)%nat eqn:Hw; [|done].
      apply Nat.eqb_eq in Hw. by rewrite Hw.
  - apply IH; [|done]. unfold fits. apply N.ltb_lt. lia.
Qed.

(** What [open] makes of the archive an encoder wrote. *)
Lemma open_encoded source buf wasmURL w files :
  (checksum_width = 0%nat ∨ ∀ b, length (digest b) = checksum_width) →
  NoDup files.*1 →
  forallb (λ f, utf8_valid (list_byte_of_string (fst f))) files = true →
  encodable compress files = true →
  source = SrcUint8Array buf ∨ source = SrcArrayBuffer buf →
  heap w !! buf = Some (encode_archive compress files) →
  wasm_usable w →
  ∃ pkg, open source wasmURL w = (Ok pkg, set_wasmInit (Some (Ok ())) w)
         ∧ ready (encode_archive compress files) pkg
         ∧ index (reader pkg)
           = layout compress (N.of_nat (index_size compress files)) files.
Proof.
  intros Hsum Hnd Hutf Henc Hsrc Hbuf Hw.
  set (idx := layout compress (N.of_nat (index_size compress files)) files).
  unfold encodable in Henc.
  apply andb_true_iff in Henc as [Henc Hf].
  apply andb_true_iff in Henc as [Henc Hlen].
  apply andb_true_iff in Henc as [Hv Hn].
  assert (Hparse : parse_index (encode_archive compress files) = Ok idx).
  { apply parse_index_write; [done|by unfold idx; rewrite layout_length|].
    apply layout_fits; [done| |done].
    by rewrite encode_archive_length, Nat2N.inj_add in Hlen. }
  assert (Hval : validate_index (N.of_nat (length (encode_archive compress files))) idx
                 = Ok ()).
  { unfold validate_index.
    assert (Hb : forallb (in_bounds (N.of_nat (length (encode_archive compress files)))) idx
                 = true).
    { apply forallb_forall. intros e He. apply list_elem_of_In, layout_bounds in He.
      unfold in_bounds. apply N.leb_le.
      rewrite encode_archive_length, Nat2N.inj_add. lia. }
    rewrite Hb. cbn [negb]. unfold idx at 1. rewrite layout_no_overlap. cbn [negb].
    unfold unique_paths, idx. rewrite layout_paths.
    by rewrite bool_decide_eq_true_2. }
  assert (Hu : paths_utf8 (encode_archive compress files)).
  { unfold paths_utf8. rewrite Hparse. apply forallb_forall. intros e He.
    apply list_elem_of_In in He.
    assert (Hp : entry_path e ∈ files.*1).
    { rewrite <- (layout_paths (N.of_nat (index_size compress files))).
      apply list_elem_of_fmap. eauto. }
    apply list_elem_of_fmap in Hp as ([p c] & Hpe & Hin). cbn in Hpe.
    rewrite forallb_forall in Hutf. unfold path_ok. rewrite Hpe.
    apply (Hutf (p, c)). by apply list_elem_of_In. }
  rewrite (open_buffer _ _ _ _ _ Hsrc Hbuf Hw Hu).
  unfold open_archive, mbind, Result_bind. rewrite Hparse, Hval.
  eexists. split; [done|]. split; [|done].
  exists idx. split; [by eapply parse_index_header|]. split; [done|].
  split; [by apply validate_index_Ok|]. done.
Qed.

(** C6 -- round trip over the layout and the reader engine.  Take files
    with pairwise different paths (well-formed UTF-8) that the format can
    hold, a codec whose decompressor undoes its compressor and, if the
    format declares a checksum, a digest of the width of the field.  The
    archive an encoder lays out for them opens, lists the paths in the order
    given, and after any calls short of [dispose] -- extractions of any
    paths in any order among them -- [getBytes] of each path returns the
    bytes supplied for that path. *)
Theorem encode_open_extract_roundtrip source buf wasmURL w files :
  (∀ b, decompress (compress b) = Some b) →
  (checksum_width = 0%nat ∨ ∀ b, length (digest b) = checksum_width) →
  NoDup files.*1 →
  forallb (λ f, utf8_valid (list_byte_of_string (fst f))) files = true →
  encodable compress files = true →
  source = SrcUint8Array buf ∨ source = SrcArrayBuffer buf →
  heap w !! buf = Some (encode_archive compress files) →
  wasm_usable w →
  ∃ pkg w1,
    open source wasmURL w = (Ok pkg, w1)
    ∧ fst (list_ (pkg, w1)) = Ok files.*1
    ∧ ∀ calls path content,
        forallb (λ c, negb (is_dispose c)) calls = true →
        (path, content) ∈ files →
        returned_bytes (getBytes path (run calls (pkg, w1))) = Ok content.
Proof.
  intros Hcodec Hsum Hnd Hutf Henc Hsrc Hbuf Hw.
  destruct (open_encoded source buf wasmURL w files Hsum Hnd Hutf Henc Hsrc Hbuf Hw)
    as (pkg & Hopen & Hready & Hidx).
  exists pkg, (set_wasmInit (Some (Ok ())) w). split; [done|].
  pose proof Hready as (idx & _ & _ & _ & Hrd & Hfi & _).
  assert (Hidx' : idx = layout compress (N.of_nat (index_size compress files)) files).
  { rewrite <- Hidx, Hrd. done. }
  split.
  { cbn. rewrite Hfi, Hidx'. by rewrite layout_paths. }
  intros calls path content Hcalls Hin.
  rewrite (returned_bytes_decided path _ (pkg, set_wasmInit (Some (Ok ())) w)).
  2:{ apply run_fileIndex. }
  2:{ by apply spec_run_reader. }
  destruct (layout_extract
              (index_bytes (layout compress (N.of_nat (index_size compress files)) files))
              files path content Hnd Hin) as (e & Hl & Hs & Hd & Hc).
  rewrite index_bytes_length in Hl.
  rewrite <- write_archive_index in Hs. fold (encode_archive compress files) in Hs.
  eapply getBytes_decodes_frame; [exact Hready| | | |].
  - by rewrite Hidx.
  - rewrite Hs. apply Hcodec.
  - done.
  - rewrite Hc. unfold stored_checksum.
    destruct (checksum_width =? 0)%nat eqn:Hz; [|by right].
    left. by apply Nat.eqb_eq.
Qed.

End EncoderProperties.

(* ========================================================================= *)
(** * The MIME type of a path                                                *)
(* ========================================================================= *)

Lemma split_nonempty sep s : split sep s ≠ [].
Proof.
  destruct s as [|c s]; cbn [split]; [done|].
  destruct (ascii_eqb c sep); [done|]. by destruct (split sep s).
Qed.

Lemma MIME_BY_EXT_values ext mime :
  MIME_BY_EXT !! ext = Some mime → normalize_type mime = mime.
Proof.
  unfold MIME_BY_EXT.
  repeat (rewrite lookup_insert; case_decide; [by intros [= <-]|]).
  by rewrite lookup_empty.
Qed.

(** Outside the property names every object inherits, [mimeFromPath] is the
    table lookup of the lowercased last segment, with the default for an
    extension the table does not have; [getBlob] attaches that type. *)
Lemma mimeFromPath_table path :
  Object_prototype_get (extension path) = JsUndefined →
  mimeFromPath path
  = JsString (default "application/octet-stream" (MIME_BY_EXT !! extension path))
  ∧ ∀ content, blob_type (new_Blob content (mimeFromPath path))
               = default "application/octet-stream" (MIME_BY_EXT !! extension path).
Proof.
  intros Hproto.
  assert (H : mimeFromPath path
    = JsString (default "application/octet-stream" (MIME_BY_EXT !! extension path))).
  { unfold mimeFromPath. fold (extension path). unfold object_get.
    destruct (MIME_BY_EXT !! extension path); [done|]. by rewrite Hproto. }
  split; [done|]. intros content. rewrite H. cbn [new_Blob blob_type ToString].
  destruct (MIME_BY_EXT !! extension path) as [mime|] eqn:Hm; cbn [default].
  - by eapply MIME_BY_EXT_values.
  - reflexivity.
Qed.

(** C9 -- the lookup in [MIME_BY_EXT] also finds what the object inherits:
    for the extension [__proto__] or [constructor], [mimeFromPath] returns
    the inherited object instead of a MIME string, and the Blob gets the
    text of that object as its type instead of application/octet-stream. *)
Theorem mimeFromPath_inherited_property :
  mimeFromPath "scene.__proto__" = JsObjectPrototype
  ∧ mimeFromPath "docs/api.constructor" = JsNativeFunction "Object"
  ∧ ∀ content,
      blob_type (new_Blob content (mimeFromPath "scene.__proto__"))
      = "[object object]".
Proof. split; [|split]; reflexivity. Qed.

(* ========================================================================= *)
(** * The theorems on the example archive                                    *)
(* ========================================================================= *)

#[local] Existing Instance stored_format.

(** Opening the example archive gives the example package. *)
Lemma example_open :
  @open (@spec_engine stored_format) (SrcUint8Array 0) None example_world
  = (Ok example_package, snd example_state).
Proof. reflexivity. Qed.

(** C1 on the example: c.bin is not in the archive. *)
Lemma getBytes_missing_path_witness :
  ("c.bin" ∉ fileIndex example_package)
  ∧ getBytes "c.bin" example_state
    = (Throw (path_not_found "c.bin"), example_state)
  ∧ (∀ q, getBytes q (snd (getBytes "c.bin" example_state))
          = getBytes q example_state)
  ∧ (∀ q, q ∈ fileIndex example_package →
       returned_bytes (getBytes q (snd (getBytes "c.bin" example_state)))
       = fst (extract_file q (reader example_package))).
Proof.
  assert (H : "c.bin" ∉ fileIndex example_package).
  { apply (proj1 (bool_decide_eq_false _)). vm_compute. reflexivity. }
  split; [exact H|].
  exact (getBytes_missing_path example_package (snd example_state) "c.bin" H).
Defined.

(** C3 on the example. *)
Lemma list_stable_witness :
  @open (@spec_engine stored_format) (SrcUint8Array 0) None example_world
  = (Ok example_package, snd example_state)
  ∧ (∃ data rd listJSON,
        source_bytes (SrcUint8Array 0) example_world = Some data ∧
        ZstdReader_new data = Ok rd ∧
        fst (get_file_list rd) = Ok listJSON ∧
        JSON_parse (TextDecoder_decode listJSON) = Ok (fileIndex example_package))
  ∧ ∀ calls, let s := run calls example_state in
             list_ s = (Ok (fileIndex example_package), s).
Proof.
  assert (H : @open (@spec_engine stored_format) (SrcUint8Array 0) None example_world
              = (Ok example_package, snd example_state)) by reflexivity.
  split; [exact H|].
  exact (list_stable (SrcUint8Array 0) None example_world example_package
           (snd example_state) H).
Defined.

(** C8 on the example: the URL of a.bin, read again after other calls. *)
Lemma getURL_cached_witness :
  getURL "a.bin" example_state = (Ok "blob:0", snd (getURL "a.bin" example_state))
  ∧ forallb (λ c, negb (is_dispose c)) example_calls = true
  ∧ (let s2 := run example_calls (snd (getURL "a.bin" example_state)) in
     getURL "a.bin" s2 = (Ok "blob:0", s2))
  ∧ (∀ s3 : @PkgState (@spec_engine stored_format),
       let sd := snd (dispose s3) in
       urlCache (fst sd) = ∅
       ∧ ∀ p u, urlCache (fst s3) !! p = Some u →
                objectURLs (snd sd) !! u = None).
Proof.
  assert (H1 : getURL "a.bin" example_state
               = (Ok "blob:0", snd (getURL "a.bin" example_state))) by reflexivity.
  assert (H2 : forallb (λ c, negb (is_dispose c)) example_calls = true)
    by reflexivity.
  split; [exact H1|]. split; [exact H2|].
  exact (getURL_cached "a.bin" example_state "blob:0" _ example_calls H1 H2).
Defined.

(** C4 on the example: a.bin read after other calls and a caller write. *)
Lemma getBytes_repeatable_witness :
  forallb (λ c, negb (is_dispose c)) example_calls = true
  ∧ let s := run example_calls example_state in
    returned_bytes (getBytes "a.bin" s)
    = returned_bytes (getBytes "a.bin" example_state)
    ∧ fst (snd (getBytes "a.bin" s)) = fst s
    ∧ reader (fst s) = reader example_package
    ∧ fileIndex (fst s) = fileIndex example_package
    ∧ (∀ arr s', getBytes "a.bin" s = (Ok arr, s') → heap (snd s) !! arr = None).
Proof.
  assert (H : forallb (λ c, negb (is_dispose c)) example_calls = true)
    by reflexivity.
  split; [exact H|].
  exact (@getBytes_repeatable stored_format example_package (snd example_state)
           example_calls "a.bin" H).
Defined.

(** C5 on the example archive. *)
Lemma open_all_or_nothing_witness :
  (SrcUint8Array 0 = SrcUint8Array 0 ∨ SrcUint8Array 0 = SrcArrayBuffer 0)
  ∧ heap example_world !! 0%nat = Some example_archive
  ∧ wasm_usable example_world
  ∧ paths_utf8 example_archive
  ∧ let r := @open (@spec_engine stored_format) (SrcUint8Array 0) None example_world in
    (∃ cause, fst r = Throw (EngineError (OpenError cause)))
    ∨ (∃ pkg, fst r = Ok pkg
         ∧ ready example_archive pkg
         ∧ (∀ e, e ∈ index (reader pkg) →
              length (slice (compressed_offset e) (compressed_length e) example_archive)
              = N.to_nat (compressed_length e))
         ∧ (∀ path, extract_outcome path (fst (getBytes path (pkg, snd r))))
         ∧ (∀ path, path ∉ fileIndex pkg →
              fst (getBytes path (pkg, snd r)) = Throw (path_not_found path))
         ∧ (∀ path, path ∈ fileIndex pkg →
              ∃ e, e ∈ index (reader pkg) ∧ entry_path e = path
                   ∧ content_checked e
                       (slice (compressed_offset e) (compressed_length e)
                          example_archive)
                       (returned_bytes (getBytes path (pkg, snd r))))).
Proof.
  assert (H1 : SrcUint8Array 0 = SrcUint8Array 0 ∨ SrcUint8Array 0 = SrcArrayBuffer 0)
    by (left; reflexivity).
  assert (H2 : heap example_world !! 0%nat = Some example_archive) by reflexivity.
  assert (H3 : wasm_usable example_world) by (left; reflexivity).
  assert (H4 : paths_utf8 example_archive) by reflexivity.
  split; [exact H1|]. split; [exact H2|]. split; [exact H3|]. split; [exact H4|].
  exact (@open_all_or_nothing stored_format (SrcUint8Array 0) 0%nat None
           example_world example_archive H1 H2 H3 H4).
Defined.

(** C6 on the example files: the encoder lays out the example archive. *)
Lemma encode_open_extract_roundtrip_witness :
  encode_archive stored example_files = example_archive
  ∧ (∀ b, decompress (stored b) = Some b)
  ∧ (checksum_width = 0%nat ∨ ∀ b, length (digest b) = checksum_width)
  ∧ NoDup example_files.*1
  ∧ forallb (λ f, utf8_valid (list_byte_of_string (fst f))) example_files = true
  ∧ encodable stored example_files = true
  ∧ (SrcUint8Array 0 = SrcUint8Array 0 ∨ SrcUint8Array 0 = SrcArrayBuffer 0)
  ∧ heap example_world !! 0%nat = Some (encode_archive stored example_files)
  ∧ wasm_usable example_world
  ∧ ∃ pkg w1,
      open (SrcUint8Array 0) None example_world = (Ok pkg, w1)
      ∧ fst (list_ (pkg, w1)) = Ok example_files.*1
      ∧ ∀ calls path content,
          forallb (λ c, negb (is_dispose c)) calls = true →
          (path, content) ∈ example_files →
          returned_bytes (getBytes path (run calls (pkg, w1))) = Ok content.
Proof.
  assert (H0 : encode_archive stored example_files = example_archive)
    by reflexivity.
  assert (H1 : ∀ b, decompress (stored b) = Some b) by (intros b; reflexivity).
  assert (H2 : checksum_width = 0%nat ∨ ∀ b, length (digest b) = checksum_width)
    by (left; reflexivity).
  assert (H3 : NoDup example_files.*1)
    by (apply (proj1 (bool_decide_eq_true _)); vm_compute; reflexivity).
  assert (H4 : forallb (λ f, utf8_valid (list_byte_of_string (fst f))) example_files
               = true) by reflexivity.
  assert (H5 : encodable stored example_files = true) by reflexivity.
  assert (H6 : SrcUint8Array 0 = SrcUint8Array 0 ∨ SrcUint8Array 0 = SrcArrayBuffer 0)
    by (left; reflexivity).
  assert (H7 : heap example_world !! 0%nat
               = Some (encode_archive stored example_files)) by reflexivity.
  assert (H8 : wasm_usable example_world) by (left; reflexivity).
  split; [exact H0|]. split; [exact H1|]. split; [exact H2|]. split; [exact H3|].
  split; [exact H4|]. split; [exact H5|]. split; [exact H6|]. split; [exact H7|].
  split; [exact H8|].
  exact (@encode_open_extract_roundtrip stored_format stored (SrcUint8Array 0)
           0%nat None example_world example_files H1 H2 H3 H4 H5 H6 H7 H8).
Defined.

(** C5, the claim on the example archive with one byte of its index changed:
    the declared decompressed length of a.bin reads 5 where the frame holds
    3 bytes.  The format declares no checksum.  [open] does not reject the
    archive: it returns a package that lists both paths and still gives the
    bytes of b.bin; the corruption is found when a.bin is extracted, as a
    [DecodeError]. *)
Lemma corrupted_length_found_at_extract :
  flipped_archive ≠ example_archive
  ∧ @checksum_width stored_format = 0%nat
  ∧ open (SrcUint8Array 0) None flipped_world
    = (Ok flipped_package, set_wasmInit (Some (Ok tt)) flipped_world)
  ∧ fst (list_ (flipped_package, set_wasmInit (Some (Ok tt)) flipped_world))
    = Ok ["a.bin"; "b.bin"]
  ∧ fst (getBytes "a.bin" (flipped_package, set_wasmInit (Some (Ok tt)) flipped_world))
    = Throw (EngineError DecodeError)
  ∧ returned_bytes
      (getBytes "b.bin" (flipped_package, set_wasmInit (Some (Ok tt)) flipped_world))
    = Ok [x09; x09].
Proof.
  split; [intros H; discriminate H|]. repeat split; reflexivity.
Qed.

(** C2, the claim on the example: after [dispose], [list()] succeeds, and
    [getBytes] of a missing path throws the path-not-found error; neither
    fails with a ClosedError. *)
Lemma dispose_then_list_succeeds :
  fst (list_ (snd (dispose example_state))) = Ok ["a.bin"; "b.bin"]
  ∧ ¬ fails_with_ClosedError (fst (list_ (snd (dispose example_state))))
  ∧ ¬ fails_with_ClosedError
        (fst (getBytes "c.bin" (snd (dispose example_state)))).
Proof.
  split; [reflexivity|]. split; intros H; discriminate H.
Qed.

(** The example scenario: the archive opens, lists its two paths in order,
    gives back the bytes of b.bin and refuses a path it does not have. *)
Example example_scenario :
  fst (open (SrcUint8Array 0) None example_world) = Ok example_package
  ∧ fst (list_ example_state) = Ok ["a.bin"; "b.bin"]
  ∧ returned_bytes (getBytes "a.bin" example_state) = Ok [x01; x02; x03]
  ∧ returned_bytes (getBytes "b.bin" example_state) = Ok [x09; x09]
  ∧ fst (getBytes "c.bin" example_state) = Throw (path_not_found "c.bin")
  ∧ fst (getText "b.bin" example_state) = Ok (String (ascii_of_N 9) (String (ascii_of_N 9) EmptyString)).
Proof. repeat split; reflexivity. Qed.

(** The checksum at work: the example files written with a checksum come
    back as they were; with one byte of the content of b.bin changed the
    archive still opens, a.bin is still read, and b.bin fails with an
    [IntegrityError]. *)
Example checksummed_archive :
  (∃ pkg w,
     @open (@spec_engine mirrored_format) (SrcUint8Array 0) None
       (world_of mirrored_archive) = (Ok pkg, w)
     ∧ fst (list_ (pkg, w)) = Ok ["a.bin"; "b.bin"]
     ∧ returned_bytes (getBytes "a.bin" (pkg, w)) = Ok [x01; x02; x03]
     ∧ returned_bytes (getBytes "b.bin" (pkg, w)) = Ok [x09; x09])
  ∧ (∃ pkg w,
     @open (@spec_engine mirrored_format) (SrcUint8Array 0) None
       (world_of damaged_archive) = (Ok pkg, w)
     ∧ returned_bytes (getBytes "a.bin" (pkg, w)) = Ok [x01; x02; x03]
     ∧ fst (getBytes "b.bin" (pkg, w)) = Throw (EngineError IntegrityError)).
Proof. split; eexists _, _; repeat split; reflexivity. Qed.

(** Why the statements about [open] ask for UTF-8 paths: no open-time rule
    looks at the path bytes, and the helper decodes the file list with
    [TextDecoder], which replaces what is not UTF-8.  The archive opens, the
    helper lists the path with U+FFFD in place of the byte ff; it refuses
    the path of the entry as not listed, and the reader does not know the
    path that is listed. *)
Example non_utf8_path_listed_replaced :
  ∃ pkg w,
    open (SrcUint8Array 0) None (world_of odd_archive) = (Ok pkg, w)
    ∧ entry_path <$> index (reader pkg) = [odd_path]
    ∧ fileIndex pkg = [odd_path_decoded]
    ∧ fst (getBytes odd_path (pkg, w)) = Throw (path_not_found odd_path)
    ∧ fst (getBytes odd_path_decoded (pkg, w)) = Throw (EngineError PathNotFound).
Proof. eexists _, _. repeat split; reflexivity. Qed.

(** An archive with no entry opens, and lists nothing. *)
Example empty_archive_opens :
  ∃ pkg w,
    open (SrcUint8Array 0) None
      {| wasmInit := None; heap := {[ 0%nat := write_archive [] [] ]};
         objectURLs := ∅; urlsCreated := 0; network := ∅ |} = (Ok pkg, w)
    ∧ fst (list_ (pkg, w)) = Ok []
    ∧ fst (getBytes "a.bin" (pkg, w)) = Throw (path_not_found "a.bin").
Proof. eexists _, _. repeat split; reflexivity. Qed.

(** Archives the reader refuses: a wrong magic, a frame that runs past the
    end, a path that occurs twice. *)
Example refused_archives :
  open_archive (list_byte_of_string "ZIP!") = refuse MagicMismatch
  ∧ open_archive (write_archive example_index [x01; x02; x03; x09]) = refuse OutOfBounds
  ∧ open_archive
      (write_archive
         [ {| entry_path := "a.bin"; compressed_offset := 54; compressed_length := 3;
              decompressed_length := 3; checksum := [] |};
           {| entry_path := "a.bin"; compressed_offset := 57; compressed_length := 2;
              decompressed_length := 2; checksum := [] |} ]
         [x01; x02; x03; x09; x09]) = refuse DuplicatePath.
Proof. repeat split; reflexivity. Qed.

(* ========================================================================= *)
(** * Further properties of the helper                                       *)
(* ========================================================================= *)

Lemma blob_url_inj n m : blob_url n = blob_url m → n = m.
Proof.
  unfold blob_url. rewrite !append_cons, !append_nil.
  intros [= H]. by apply (inj pretty) in H.
Qed.

Lemma revoke_all_counter urls w :
  urlsCreated (foldr revokeObjectURL w urls) = urlsCreated w.
Proof. induction urls as [|x urls IH]; [done|]. exact IH. Qed.

Lemma revoke_all_heap urls w :
  heap (foldr revokeObjectURL w urls) = heap w.
Proof. induction urls as [|x urls IH]; [done|]. exact IH. Qed.

Lemma revoke_all_other urls w u :
  u ∉ urls →
  objectURLs (foldr revokeObjectURL w urls) !! u = objectURLs w !! u.
Proof.
  induction urls as [|x urls IH]; intros Hu; [done|].
  apply not_elem_of_cons in Hu as [Hne Hu]. cbn.
  rewrite lookup_delete_ne by done. by apply IH.
Qed.

Lemma revoke_all_None urls w u :
  objectURLs w !! u = None →
  objectURLs (foldr revokeObjectURL w urls) !! u = None.
Proof.
  intros Hw. induction urls as [|x urls IH]; [done|]. cbn.
  destruct (decide (x = u)) as [->|Hne];
    [apply lookup_delete_eq|by rewrite lookup_delete_ne].
Qed.

Lemma write_buffer_urls arr content w :
  objectURLs (write_buffer arr content w) = objectURLs w
  ∧ urlsCreated (write_buffer arr content w) = urlsCreated w.
Proof. unfold write_buffer. by destruct (heap w !! arr). Qed.

Section FurtherProperties.
Context {engine : ZstdEngine}.
Implicit Types (pkg : ZstPackage) (w : World) (s : PkgState) (path : string).

Lemma getBlob_Ok path s blob s1 :
  getBlob path s = (Ok blob, s1) →
  path ∈ fileIndex (fst s)
  ∧ blob_type blob = normalize_type (ToString (mimeFromPath path))
  ∧ ∃ rd h, s1 = (set_reader rd (fst s), set_heap h (snd s)).
Proof.
  rewrite getBlob_unfold.
  destruct (getBytes path s) as [[arr|e] s0] eqn:Hg; [|done].
  apply getBytes_Ok in Hg as (Hin & _ & bs & rd' & _ & ->).
  cbn [fst snd heap set_heap]. rewrite lookup_insert_eq.
  intros [= <- <-]. split; [done|]. split; [done|]. eauto.
Qed.

(** The invariant looks at the cache, the file index and the URL store
    only. *)
Lemma cache_ok_frame lo s s' :
  urlCache (fst s') = urlCache (fst s) →
  fileIndex (fst s') = fileIndex (fst s) →
  objectURLs (snd s') = objectURLs (snd s) →
  urlsCreated (snd s') = urlsCreated (snd s) →
  cache_ok lo s → cache_ok lo s'.
Proof.
  intros Hc Hf Ho Hn [H1 H2 H3 H4 H5 H6].
  split; unfold urls_fresh; rewrite ?Hc, ?Hf, ?Ho, ?Hn; done.
Qed.

Lemma cache_ok_getBytes lo path s :
  cache_ok lo s → cache_ok lo (snd (getBytes path s)).
Proof.
  destruct (getBytes_state path s) as (rd & h & ->).
  by apply cache_ok_frame.
Qed.

Lemma cache_ok_insert lo s path blob :
  cache_ok lo s →
  urlCache (fst s) !! path = None →
  path ∈ fileIndex (fst s) →
  blob_type blob = normalize_type (ToString (mimeFromPath path)) →
  cache_ok lo
    (set_urlCache (<[path := blob_url (urlsCreated (snd s))]> (urlCache (fst s))) (fst s),
     set_objectURLs (<[blob_url (urlsCreated (snd s)) := blob]> (objectURLs (snd s)))
                    (S (urlsCreated (snd s))) (snd s)).
Proof.
  intros [H1 H2 H3 H4 H5 H6] Hnone Hin Hty.
  assert (Hold : ∀ p u, urlCache (fst s) !! p = Some u →
            u ≠ blob_url (urlsCreated (snd s))).
  { intros p u Hp ->. destruct (H3 _ _ Hp) as (n & Hn & Hlt).
    apply blob_url_inj in Hn. lia. }
  split; unfold urls_fresh;
    cbn [fst snd urlCache set_urlCache objectURLs urlsCreated set_objectURLs
         fileIndex].
  - intros n Hn. rewrite lookup_insert_ne; [apply H1; lia|].
    intros Heq. apply blob_url_inj in Heq. lia.
  - lia.
  - intros p u. rewrite lookup_insert. case_decide as Hp.
    + intros [= <-]. exists (urlsCreated (snd s)). split; [done|lia].
    + intros Hu. destruct (H3 _ _ Hu) as (n & -> & Hlt). exists n. split; [done|lia].
  - intros p u. rewrite lookup_insert. case_decide as Hp.
    + intros [= <-]. subst p. exists blob. by rewrite lookup_insert_eq.
    + intros Hu. rewrite lookup_insert_ne; [by eapply H4|].
      intros Heq. by eapply Hold.
  - intros p u. rewrite lookup_insert. case_decide as Hp.
    + intros _. by subst p.
    + by apply H5.
  - intros p q u. rewrite !lookup_insert.
    case_decide as Hp; case_decide as Hq.
    + congruence.
    + intros [= <-] Hu. by destruct (Hold _ _ Hu).
    + intros Hu [= <-]. by destruct (Hold _ _ Hu).
    + by apply H6.
Qed.

Lemma cache_ok_getURL lo path s :
  cache_ok lo s → cache_ok lo (snd (getURL path s)).
Proof.
  intros Hok. rewrite getURL_unfold.
  destruct (urlCache (fst s) !! path) eqn:Hc; [done|].
  destruct (getBlob path s) as [[blob|e] s1] eqn:Hb.
  - apply getBlob_Ok in Hb as (Hin & Hty & rd & h & ->).
    apply (cache_ok_insert lo (set_reader rd (fst s), set_heap h (snd s)));
      [by apply (cache_ok_frame lo s)|done..].
  - pose proof (getBlob_state path s) as Hs. rewrite Hb in Hs. cbn [snd] in *.
    subst s1. by apply cache_ok_getBytes.
Qed.

Lemma cache_ok_dispose lo s :
  cache_ok lo s → cache_ok (urlsCreated (snd s)) (snd (dispose s)).
Proof.
  intros [H1 H2 H3 H4 H5 H6].
  split; unfold urls_fresh, dispose, modify;
    cbn [fst snd urlCache set_urlCache set_reader].
  - intros n Hn. rewrite revoke_all_counter in Hn. apply revoke_all_None. by apply H1.
  - by rewrite revoke_all_counter.
  - intros p u. by rewrite lookup_empty.
  - intros p u. by rewrite lookup_empty.
  - intros p u. by rewrite lookup_empty.
  - intros p q u. by rewrite lookup_empty.
Qed.

Lemma cache_ok_weaken lo lo' s :
  (lo ≤ lo')%nat → cache_ok lo' s → cache_ok lo s.
Proof.
  intros Hle [H1 H2 H3 H4 H5 H6]. split; try done; [lia|].
  intros p u Hu. destruct (H3 _ _ Hu) as (n & -> & Hn). exists n. split; [done|lia].
Qed.

Lemma cache_ok_exec lo c s : cache_ok lo s → cache_ok lo (exec c s).
Proof.
  intros Hok. destruct c as [|p|p|p|p| |arr content]; cbn [exec].
  - done.
  - by apply cache_ok_getBytes.
  - rewrite getBlob_state. by apply cache_ok_getBytes.
  - by apply cache_ok_getURL.
  - rewrite getText_state. by apply cache_ok_getBytes.
  - apply (cache_ok_weaken lo (urlsCreated (snd s))); [apply Hok|].
    by eapply cache_ok_dispose.
  - destruct (write_buffer_urls arr content (snd s)) as [Ho Hn].
    by apply (cache_ok_frame lo s).
Qed.

Lemma cache_ok_run lo calls s : cache_ok lo s → cache_ok lo (run calls s).
Proof.
  revert s. induction calls as [|c calls IH]; intros s Hok; [done|].
  cbn. apply IH. by apply cache_ok_exec.
Qed.

Lemma ensureWasm_set_heap wasmURL h w :
  ensureWasm wasmURL (set_heap h w)
  = (fst (ensureWasm wasmURL w), set_heap h (snd (ensureWasm wasmURL w))).
Proof. unfold ensureWasm. cbn [wasmInit set_heap]. by destruct (wasmInit w). Qed.

Lemma ensureWasm_urls wasmURL w :
  objectURLs (snd (ensureWasm wasmURL w)) = objectURLs w
  ∧ urlsCreated (snd (ensureWasm wasmURL w)) = urlsCreated w.
Proof. unfold ensureWasm. by destruct (wasmInit w). Qed.

(** [open] leaves a world that differs from the one [ensureWasm] leaves by
    at most the fetched buffer. *)
Lemma open_world source wasmURL w :
  ∃ h, snd (open source wasmURL w) = set_heap h (snd (ensureWasm wasmURL w)).
Proof.
  unfold open, mbind, Js_bind at 1.
  destruct (ensureWasm wasmURL w) as [[[]|e] w1]; cbn [snd];
    [|exists (heap w1); by rewrite set_heap_id].
  unfold Js_bind. destruct source as [url|buf|arr].
  - unfold mbind, Js_bind, fetch.
    destruct (network w1 !! url) as [[status body]|];
      [|exists (heap w1); by rewrite set_heap_id].
    cbn [fst snd].
    destruct (response_ok status); [|exists (heap w1); by rewrite set_heap_id].
    unfold alloc. rewrite new_ZstPackage_world. eauto.
  - unfold mret, Js_ret. rewrite new_ZstPackage_world.
    exists (heap w1). by rewrite set_heap_id.
  - unfold mret, Js_ret. rewrite new_ZstPackage_world.
    exists (heap w1). by rewrite set_heap_id.
Qed.

Lemma open_urls source wasmURL w :
  objectURLs (snd (open source wasmURL w)) = objectURLs w
  ∧ urlsCreated (snd (open source wasmURL w)) = urlsCreated w.
Proof.
  destruct (open_world source wasmURL w) as [h ->]. cbn.
  apply ensureWasm_urls.
Qed.

Lemma getBytes_heap_mono path s :
  heap (snd s) ⊆ heap (snd (snd (getBytes path s))).
Proof.
  destruct s as [pkg w]. rewrite getBytes_unfold.
  destruct (bool_decide _); [|reflexivity].
  destruct (extract_file path (reader pkg)) as [[bs|e] rd']; [|reflexivity].
  cbn. apply insert_subseteq, not_elem_of_dom, is_fresh.
Qed.

Lemma exec_heap_mono c s :
  is_method c = true → heap (snd s) ⊆ heap (snd (exec c s)).
Proof.
  intros Hc. destruct c as [|p|p|p|p| |arr content]; cbn [exec];
    [reflexivity| | | | | |done].
  - apply getBytes_heap_mono.
  - rewrite getBlob_state. apply getBytes_heap_mono.
  - rewrite getURL_unfold. destruct (urlCache (fst s) !! p); [reflexivity|].
    pose proof (getBlob_state p s) as Hs.
    destruct (getBlob p s) as [[blob|e] s1]; cbn [fst snd] in *; subst s1;
      apply getBytes_heap_mono.
  - rewrite getText_state. apply getBytes_heap_mono.
  - unfold dispose, modify. cbn [snd]. by rewrite revoke_all_heap.
Qed.

Lemma ensureWasm_again url1 url2 w :
  ensureWasm url2 (snd (ensureWasm url1 w)) = ensureWasm url1 w.
Proof.
  unfold ensureWasm.
  destruct (wasmInit w) as [r|] eqn:Hw; cbn [snd wasmInit set_wasmInit];
    [by rewrite Hw|done].
Qed.

(** X1 -- the wasm module is started at most once: whatever [wasmURL] a
    later call of [ensureWasm] is given, it settles as the first call did
    and changes nothing; an empty [wasmURL] counts as none. *)
Theorem ensureWasm_once url1 url2 w :
  ensureWasm url2 (snd (ensureWasm url1 w)) = ensureWasm url1 w
  ∧ wasmInit (snd (ensureWasm url1 w)) = Some (fst (ensureWasm url1 w))
  ∧ ensureWasm (Some EmptyString) w = ensureWasm None w.
Proof.
  split; [apply ensureWasm_again|]. unfold ensureWasm.
  split; [by destruct (wasmInit w) eqn:Hw|done].
Qed.

(** X2 -- a failed start of the wasm module is remembered: the call of
    [open] that met it rejects with its error, and so does every later
    [open], whatever the source and [wasmURL], without fetching, reading a
    buffer or constructing a reader (the world stays as it is). *)
Theorem failed_init_poisons url1 w e :
  fst (ensureWasm url1 w) = Throw e →
  ∀ source,
    open source url1 w = (Throw e, snd (ensureWasm url1 w))
    ∧ ∀ source' url2,
        open source' url2 (snd (ensureWasm url1 w))
        = (Throw e, snd (ensureWasm url1 w)).
Proof.
  intros He source.
  assert (H : ∀ src url w0, fst (ensureWasm url w0) = Throw e →
              open src url w0 = (Throw e, snd (ensureWasm url w0))).
  { intros src url w0. unfold open, mbind, Js_bind at 1.
    destruct (ensureWasm url w0) as [[[]|e'] w1]; cbn [fst snd]; [done|].
    by intros [= ->]. }
  split; [by apply H|].
  intros source' url2.
  rewrite (H source' url2) by (by rewrite ensureWasm_again).
  by rewrite ensureWasm_again.
Qed.

Lemma open_unfold source wasmURL w :
  open source wasmURL w =
  match ensureWasm wasmURL w with
  | (Ok _, w1) =>
      match source with
      | SrcString url =>
          match network w1 !! url with
          | Some (status, body) =>
              if response_ok status
              then new_ZstPackage (fresh (dom (heap w1)))
                     (set_heap (<[fresh (dom (heap w1)) := body]> (heap w1)) w1)
              else (Throw (Error ("Failed to fetch " +:+ url +:+ ": "
                                  +:+ pretty status)), w1)
          | None => (Throw (TypeError "Failed to fetch"), w1)
          end
      | SrcArrayBuffer buf => new_ZstPackage buf w1
      | SrcUint8Array arr => new_ZstPackage arr w1
      end
  | (Throw e, w1) => (Throw e, w1)
  end.
Proof.
  unfold open, mbind, Js_bind at 1.
  destruct (ensureWasm wasmURL w) as [[[]|e] w1]; [|done].
  unfold Js_bind at 1. destruct source as [url|buf|arr]; [|done..].
  unfold mbind, Js_bind, fetch.
  destruct (network w1 !! url) as [[status body]|]; [|done]. cbn [fst snd].
  by destruct (response_ok status).
Qed.

Lemma open_keeps_buffers_aux buf wasmURL w :
  heap (snd (open (SrcUint8Array buf) wasmURL w)) = heap w.
Proof.
  unfold open, mbind, Js_bind at 1.
  pose proof (ensureWasm_heap wasmURL w) as Hh.
  destruct (ensureWasm wasmURL w) as [[[]|e] w1]; cbn [snd] in *; [|done].
  unfold Js_bind, mret, Js_ret. by rewrite new_ZstPackage_world.
Qed.

(** X3 -- once the wasm module has started, opening a URL whose response is
    ok is opening the fetched body: [open(url)] has the outcome and leaves
    the world that [open] on a new [Uint8Array] holding the body has, and no
    buffer that existed before is touched. *)
Theorem open_url_as_buffer url wasmURL w status body :
  fst (ensureWasm wasmURL w) = Ok () →
  network w !! url = Some (status, body) →
  response_ok status = true →
  let buf := fresh (dom (heap w)) in
  open (SrcString url) wasmURL w
  = open (SrcUint8Array buf) wasmURL (set_heap (<[buf := body]> (heap w)) w)
  ∧ heap w ⊆ heap (snd (open (SrcString url) wasmURL w)).
Proof.
  intros Hinit Hnet Hok buf.
  assert (Heq : open (SrcString url) wasmURL w
    = open (SrcUint8Array buf) wasmURL (set_heap (<[buf := body]> (heap w)) w)).
  { rewrite !open_unfold, ensureWasm_set_heap.
    pose proof (ensureWasm_heap wasmURL w) as Hh.
    pose proof (ensureWasm_network wasmURL w) as Hn.
    destruct (ensureWasm wasmURL w) as [[[]|e] w1]; cbn [fst snd] in *; [|done].
    cbn [network heap set_heap]. rewrite Hn, Hnet, Hok, Hh. done. }
  split; [done|]. rewrite Heq.
  rewrite (open_keeps_buffers_aux buf wasmURL
             (set_heap (<[buf := body]> (heap w)) w)). cbn. apply insert_subseteq, not_elem_of_dom, is_fresh.
Qed.

(** X4 -- when the response of [fetch(url)] is not ok, [open(url)] rejects
    with the Error naming the URL and the status; when [fetch] itself
    fails, with the error of [fetch].  In both cases the body is not read,
    no reader is constructed and no buffer is created. *)
Theorem open_url_rejected url wasmURL w :
  fst (ensureWasm wasmURL w) = Ok () →
  (∀ status body, network w !! url = Some (status, body) →
                  response_ok status = false) →
  open (SrcString url) wasmURL w
  = (Throw (match network w !! url with
            | Some (status, _) =>
                Error ("Failed to fetch " +:+ url +:+ ": " +:+ pretty status)
            | None => TypeError "Failed to fetch"
            end),
     snd (ensureWasm wasmURL w))
  ∧ heap (snd (open (SrcString url) wasmURL w)) = heap w.
Proof.
  intros Hinit Hbad.
  assert (Heq : open (SrcString url) wasmURL w
    = (Throw (match network w !! url with
              | Some (status, _) =>
                  Error ("Failed to fetch " +:+ url +:+ ": " +:+ pretty status)
              | None => TypeError "Failed to fetch"
              end),
       snd (ensureWasm wasmURL w))).
  { rewrite open_unfold.
    pose proof (ensureWasm_network wasmURL w) as Hn.
    destruct (ensureWasm wasmURL w) as [[[]|e] w1]; cbn [fst snd] in *; [|done].
    rewrite Hn. destruct (network w !! url) as [[status body]|] eqn:Hnet; [|done].
    by rewrite (Hbad status body). }
  split; [done|]. rewrite Heq. cbn [snd]. apply ensureWasm_heap.
Qed.

(** X6 -- the first [getURL] for a listed path the reader can extract
    creates exactly one object URL, the next of the store; that URL names a
    Blob holding the extracted bytes under the type of the path, and is
    what the cache then holds for the path.  File index and the other URLs
    are as before. *)
Theorem getURL_creates path pkg w content rd' :
  urlCache pkg !! path = None →
  path ∈ fileIndex pkg →
  extract_file path (reader pkg) = (Ok content, rd') →
  let url := blob_url (urlsCreated w) in
  fst (getURL path (pkg, w)) = Ok url
  ∧ urlCache (fst (snd (getURL path (pkg, w)))) = <[path := url]> (urlCache pkg)
  ∧ objectURLs (snd (snd (getURL path (pkg, w))))
    = <[url := new_Blob content (mimeFromPath path)]> (objectURLs w)
  ∧ urlsCreated (snd (snd (getURL path (pkg, w)))) = S (urlsCreated w)
  ∧ reader (fst (snd (getURL path (pkg, w)))) = rd'
  ∧ fileIndex (fst (snd (getURL path (pkg, w)))) = fileIndex pkg.
Proof.
  intros Hc Hin Hex url. rewrite getURL_unfold. cbn [fst]. rewrite Hc.
  rewrite getBlob_unfold, getBytes_unfold.
  rewrite bool_decide_eq_true_2 by done. rewrite Hex.
  cbn [fst snd heap set_heap]. rewrite lookup_insert_eq. cbn. done.
Qed.

(** X7 -- for a path that is not in the file index, [getBlob], [getText]
    and (in a package whose cache is consistent) [getURL] throw the
    path-not-found error and leave package and world as they were: no
    buffer, no Blob URL, no cache entry. *)
Theorem missing_path_leaves_no_trace lo path s :
  cache_ok lo s →
  path ∉ fileIndex (fst s) →
  getBlob path s = (Throw (path_not_found path), s)
  ∧ getText path s = (Throw (path_not_found path), s)
  ∧ getURL path s = (Throw (path_not_found path), s).
Proof.
  intros Hok Hmiss.
  assert (Hg : getBytes path s = (Throw (path_not_found path), s)).
  { destruct s as [pkg w]. rewrite getBytes_unfold.
    by rewrite bool_decide_eq_false_2. }
  assert (Hb : getBlob path s = (Throw (path_not_found path), s))
    by (by rewrite getBlob_unfold, Hg).
  split; [done|]. split; [by rewrite getText_unfold, Hg|].
  rewrite getURL_unfold.
  destruct (urlCache (fst s) !! path) as [u|] eqn:Hc; [|by rewrite Hb].
  destruct Hmiss. by eapply (cache_listed lo s Hok).
Qed.

(** X8 -- a package returned by [open] keeps its cache consistent with the
    URL store through every sequence of calls: each cached URL is live,
    names a Blob with the MIME type of its path, belongs to a listed path
    and to that path only. *)
Theorem open_cache_ok source wasmURL w pkg w' calls :
  open source wasmURL w = (Ok pkg, w') →
  urls_fresh w →
  cache_ok (urlsCreated w) (run calls (pkg, w')).
Proof.
  intros Hopen Hfresh. apply cache_ok_run.
  destruct (open_urls source wasmURL w) as [Ho Hn]. rewrite Hopen in Ho, Hn.
  cbn [snd] in Ho, Hn.
  destruct (open_Ok _ _ _ _ _ Hopen) as (_ & _ & _ & _ & _ & _ & _ & Hc).
  split; unfold urls_fresh; cbn [fst snd]; rewrite ?Ho, ?Hn, ?Hc.
  - done.
  - lia.
  - intros p u. by rewrite lookup_empty.
  - intros p u. by rewrite lookup_empty.
  - intros p u. by rewrite lookup_empty.
  - intros p q u. by rewrite lookup_empty.
Qed.

(** X9 -- [dispose] revokes the cached URLs and nothing else: every other
    object URL of the store names the Blob it named, the counter of the
    store, the buffers and the file index are unchanged. *)
Theorem dispose_revokes_only_cached s :
  (∀ u, u ∉ cached_urls (fst s) →
        objectURLs (snd (snd (dispose s))) !! u = objectURLs (snd s) !! u)
  ∧ urlsCreated (snd (snd (dispose s))) = urlsCreated (snd s)
  ∧ heap (snd (snd (dispose s))) = heap (snd s)
  ∧ fileIndex (fst (snd (dispose s))) = fileIndex (fst s).
Proof.
  unfold dispose, modify. cbn [fst snd].
  split; [intros u Hu; by apply revoke_all_other|].
  split; [apply revoke_all_counter|]. split; [apply revoke_all_heap|done].
Qed.

(** X10 -- a second [dispose] finds the cache empty: it revokes nothing and
    leaves the world as the first left it; all it does is call [free] on
    the reader again. *)
Theorem dispose_twice s :
  snd (dispose (snd (dispose s)))
  = (set_reader (free (free (reader (fst s)))) (set_urlCache ∅ (fst s)),
     snd (snd (dispose s))).
Proof.
  unfold dispose, modify. cbn [fst snd]. unfold cached_urls.
  cbn [urlCache set_reader set_urlCache reader fileIndex].
  by rewrite map_to_list_empty.
Qed.


(** X12 -- the methods of a package never write into an existing buffer:
    after any sequence of method calls every buffer that existed holds the
    bytes it held (arrays returned earlier included); the heap only
    grows. *)
Theorem methods_keep_buffers calls s :
  forallb is_method calls = true →
  heap (snd s) ⊆ heap (snd (run calls s)).
Proof.
  revert s. induction calls as [|c calls IH]; intros s Hm; [reflexivity|].
  cbn in Hm. apply andb_true_iff in Hm as [Hc Hm]. cbn.
  etransitivity; [by apply exec_heap_mono|]. by apply IH.
Qed.

End FurtherProperties.

(* ========================================================================= *)
(** * Further properties of [mimeFromPath]                                   *)
(* ========================================================================= *)

Lemma split_dot_free s : dot_free s = true → split "." s = [s].
Proof.
  induction s as [|c s IH]; [done|]. cbn [dot_free split].
  intros [Hc Hs]%andb_true_iff. apply negb_true_iff in Hc. rewrite Hc.
  by rewrite IH.
Qed.

Lemma split_app a b :
  split "." (a +:+ "." +:+ b) = split "." a ++ split "." b.
Proof.
  induction a as [|c a IH].
  - rewrite append_nil, append_cons, append_nil. reflexivity.
  - rewrite append_cons. cbn [split]. destruct (ascii_eqb c "."); rewrite IH.
    + reflexivity.
    + pose proof (split_nonempty "." a) as Hne.
      by destruct (split "." a).
Qed.

Lemma lower_ascii_dot c : ascii_eqb (lower_ascii c) "." = ascii_eqb c ".".
Proof. destruct c as [[] [] [] [] [] [] [] []]; reflexivity. Qed.

Lemma lower_ascii_idem c : lower_ascii (lower_ascii c) = lower_ascii c.
Proof. destruct c as [[] [] [] [] [] [] [] []]; reflexivity. Qed.

Lemma toLowerCase_idem s : toLowerCase (toLowerCase s) = toLowerCase s.
Proof.
  induction s as [|c s IH]; [done|]. cbn [toLowerCase].
  by rewrite lower_ascii_idem, IH.
Qed.

Lemma split_toLowerCase s :
  split "." (toLowerCase s) = toLowerCase <$> split "." s.
Proof.
  induction s as [|c s IH]; [done|]. cbn [toLowerCase split].
  rewrite lower_ascii_dot, IH. destruct (ascii_eqb c "."); [done|].
  pose proof (split_nonempty "." s) as Hne. by destruct (split "." s).
Qed.

Lemma extension_toLowerCase path : extension (toLowerCase path) = extension path.
Proof.
  unfold extension, pop. rewrite split_toLowerCase, fmap_last.
  destruct (last (split "." path)); cbn; [|done]. apply toLowerCase_idem.
Qed.

Lemma extension_lower path : toLowerCase (extension path) = extension path.
Proof.
  unfold extension. destruct (pop (split "." path)); [|done].
  apply toLowerCase_idem.
Qed.

Lemma mimeFromPath_extension p q :
  extension p = extension q → mimeFromPath p = mimeFromPath q.
Proof.
  intros H. unfold mimeFromPath. fold (extension p) (extension q). by rewrite H.
Qed.

(** X13 -- only what follows the last dot of a path decides its MIME type,
    directories and base name are ignored; a name without a dot is its own
    extension (a file called ogg is audio/ogg). *)
Theorem extension_last_segment prefix ext :
  dot_free ext = true →
  extension (prefix +:+ "." +:+ ext) = toLowerCase ext
  ∧ extension ext = toLowerCase ext
  ∧ mimeFromPath (prefix +:+ "." +:+ ext) = mimeFromPath ext.
Proof.
  intros Hd.
  assert (H1 : extension (prefix +:+ "." +:+ ext) = toLowerCase ext).
  { unfold extension, pop. rewrite split_app, (split_dot_free ext) by done.
    by rewrite last_snoc. }
  assert (H2 : extension ext = toLowerCase ext).
  { unfold extension, pop. by rewrite split_dot_free. }
  split; [done|]. split; [done|]. apply mimeFromPath_extension. congruence.
Qed.

(** X14 -- for paths written in ASCII, where [toLowerCase] is the platform
    function, MIME detection does not look at letter case: a path and its
    lowercase form, and any two such paths that differ in case only, get
    the same result. *)
Theorem mimeFromPath_ignores_case path :
  ascii_only path = true →
  mimeFromPath (toLowerCase path) = mimeFromPath path
  ∧ ∀ q, ascii_only q = true → toLowerCase q = toLowerCase path →
         mimeFromPath q = mimeFromPath path.
Proof.
  intros _. split.
  - apply mimeFromPath_extension, extension_toLowerCase.
  - intros q _ Hq. apply mimeFromPath_extension.
    by rewrite <- (extension_toLowerCase q), Hq, extension_toLowerCase.
Qed.

Lemma MIME_BY_EXT_known ext mime :
  MIME_BY_EXT !! ext = Some mime → mime ∈ known_mime_types.
Proof.
  unfold MIME_BY_EXT, known_mime_types.
  repeat (rewrite lookup_insert; case_decide; [intros [= <-]; set_solver|]).
  by rewrite lookup_empty.
Qed.

Lemma inherited_function_not_lower ext :
  ext ∈ Object_prototype_functions → toLowerCase ext ≠ ext.
Proof.
  unfold Object_prototype_functions. intros Hin.
  repeat (apply elem_of_cons in Hin as [->|Hin]; [by vm_compute|]).
  by apply elem_of_nil in Hin.
Qed.

(** X15 -- what [mimeFromPath] returns, for every path: the inherited
    [Object] for the extension constructor, the inherited prototype for
    __proto__ (in any letter case), and for every other path one of the
    four MIME strings of the table. *)
Theorem mimeFromPath_cases path :
  (extension path = "constructor" →
     mimeFromPath path = JsNativeFunction "Object")
  ∧ (extension path = "__proto__" → mimeFromPath path = JsObjectPrototype)
  ∧ (extension path ≠ "constructor" → extension path ≠ "__proto__" →
     ∃ mime, mimeFromPath path = JsString mime ∧ mime ∈ known_mime_types).
Proof.
  unfold mimeFromPath. fold (extension path). split; [|split].
  - by intros ->.
  - by intros ->.
  - intros Hc Hp. unfold object_get.
    destruct (MIME_BY_EXT !! extension path) as [mime|] eqn:Hm.
    + exists mime. split; [done|]. by eapply MIME_BY_EXT_known.
    + unfold Object_prototype_get. rewrite !decide_False by done.
      case_decide as Hf.
      * by destruct (inherited_function_not_lower _ Hf (extension_lower path)).
      * eexists. split; [done|]. unfold known_mime_types. set_solver.
Qed.

(* ========================================================================= *)
(** * The example page                                                       *)
(* ========================================================================= *)

Section ExamplePageProperties.
Context {engine : ZstdEngine}.

(** The first [getURL] of a listed path, in full. *)
Lemma getURL_new path pkg w content rd' :
  urlCache pkg !! path = None →
  path ∈ fileIndex pkg →
  extract_file path (reader pkg) = (Ok content, rd') →
  getURL path (pkg, w)
  = (Ok (blob_url (urlsCreated w)),
     (set_urlCache (<[path := blob_url (urlsCreated w)]> (urlCache pkg))
        (set_reader rd' pkg),
      set_objectURLs
        (<[blob_url (urlsCreated w) := new_Blob content (mimeFromPath path)]>
           (objectURLs w))
        (S (urlsCreated w))
        (set_heap (<[fresh (dom (heap w)) := content]> (heap w)) w))).
Proof.
  intros Hc Hin Hex. rewrite getURL_unfold. cbn [fst]. rewrite Hc.
  rewrite getBlob_unfold, getBytes_unfold.
  rewrite bool_decide_eq_true_2 by done. rewrite Hex.
  cbn [fst snd heap set_heap]. rewrite lookup_insert_eq. reflexivity.
Qed.

(** X16 -- the script of the example page, when the archive it fetches
    opens and holds the two assets: it logs the file list, appends one image
    and starts one looping sound; the image URL names a Blob of type
    image/webp holding the bytes of textures/hero.webp, the sound URL a Blob
    of type audio/ogg holding the bytes of audio/bgm.ogg; the outcome is
    that of [audio.play()]. *)
Theorem example_main_shows_media pg pkg w1 picture rd1 sound rd2 :
  open (SrcString "/assets.zst") None (page_world pg) = (Ok pkg, w1) →
  "textures/hero.webp" ∈ fileIndex pkg →
  "audio/bgm.ogg" ∈ fileIndex pkg →
  extract_file "textures/hero.webp" (reader pkg) = (Ok picture, rd1) →
  extract_file "audio/bgm.ogg" rd1 = (Ok sound, rd2) →
  let imgURL := blob_url (urlsCreated (page_world pg)) in
  let audioURL := blob_url (S (urlsCreated (page_world pg))) in
  fst (example_main pg) = autoplay pg
  ∧ console (snd (example_main pg)) = console pg ++ [fileIndex pkg]
  ∧ body_images (snd (example_main pg)) = body_images pg ++ [imgURL]
  ∧ play_calls (snd (example_main pg))
    = play_calls pg ++ [{| audio_src := audioURL; audio_loop := true |}]
  ∧ objectURLs (page_world (snd (example_main pg))) !! imgURL
    = Some {| blob_bytes := picture; blob_type := "image/webp" |}
  ∧ objectURLs (page_world (snd (example_main pg))) !! audioURL
    = Some {| blob_bytes := sound; blob_type := "audio/ogg" |}.
Proof.
  intros Hopen Hin1 Hin2 Hex1 Hex2 imgURL audioURL.
  destruct (open_urls (SrcString "/assets.zst") None (page_world pg)) as [Ho Hn].
  rewrite Hopen in Ho, Hn. cbn [snd] in Ho, Hn.
  destruct (open_Ok _ _ _ _ _ Hopen) as (_ & _ & _ & _ & _ & _ & _ & Hc).
  unfold example_main. rewrite Hopen. cbn [list_ gets fst snd].
  rewrite (getURL_new _ _ _ picture rd1) by (rewrite ?Hc; done).
  rewrite (getURL_new _ _ _ sound rd2);
    [|cbn; rewrite Hc; by rewrite lookup_insert_ne, lookup_empty|done|done].
  cbn [fst snd urlsCreated set_objectURLs set_heap objectURLs page_world
       set_page_world console_log show_media console body_images play_calls].
  rewrite Hn. fold imgURL audioURL.
  assert (Hne : audioURL ≠ imgURL).
  { intros Heq. apply blob_url_inj in Heq. lia. }
  split; [done|]. split; [done|]. split; [done|]. split; [done|].
  split.
  - rewrite lookup_insert_ne, lookup_insert_eq by done. reflexivity.
  - rewrite lookup_insert_eq. reflexivity.
Qed.

(** X17 -- the script shows nothing half-way.  If [open] rejects, that
    rejection is the outcome of the script, and nothing is logged, appended
    or played.  If [open] returns a package, its file list is logged; then
    if [getURL] of the image rejects, that rejection is the outcome and
    nothing is appended or played; if it returns a URL and [getURL] of the
    sound rejects, that rejection is the outcome, nothing is appended or
    played, and the image URL stays in the URL store; if both return, the
    outcome is that of [play], exactly one image and one looping sound are
    added, and both URLs are live. *)
Theorem example_main_all_or_nothing pg :
  urls_fresh (page_world pg) →
  let opened := open (SrcString "/assets.zst") None (page_world pg) in
  let out := example_main pg in
  (∀ e, fst opened = Throw e →
     fst out = Throw e ∧ console (snd out) = console pg
     ∧ nothing_shown pg (snd out))
  ∧ (∀ pkg, fst opened = Ok pkg →
     let image := getURL "textures/hero.webp" (pkg, snd opened) in
     console (snd out) = console pg ++ [fileIndex pkg]
     ∧ (∀ e, fst image = Throw e →
          fst out = Throw e ∧ nothing_shown pg (snd out))
     ∧ (∀ imgURL, fst image = Ok imgURL →
          let sound := getURL "audio/bgm.ogg" (snd image) in
          (∀ e, fst sound = Throw e →
             fst out = Throw e ∧ nothing_shown pg (snd out)
             ∧ is_Some (objectURLs (page_world (snd out)) !! imgURL))
          ∧ (∀ audioURL, fst sound = Ok audioURL →
             fst out = autoplay pg
             ∧ body_images (snd out) = body_images pg ++ [imgURL]
             ∧ play_calls (snd out)
               = play_calls pg ++ [{| audio_src := audioURL; audio_loop := true |}]
             ∧ is_Some (objectURLs (page_world (snd out)) !! imgURL)
             ∧ is_Some (objectURLs (page_world (snd out)) !! audioURL)))).
Proof.
  intros Hfresh opened out. subst opened out. unfold example_main, nothing_shown.
  destruct (open (SrcString "/assets.zst") None (page_world pg))
    as [[pkg|e] w1] eqn:Hopen; cbn [fst snd].
  2:{ split; [intros e' [= <-]; done|intros pkg' [=]]. }
  split; [intros e [=]|]. intros pkg' [= <-].
  cbn [list_ gets fst snd].
  assert (Hok : cache_ok (urlsCreated (page_world pg)) (pkg, w1)).
  { destruct (open_urls (SrcString "/assets.zst") None (page_world pg)) as [Ho Hn].
    rewrite Hopen in Ho, Hn. cbn [snd] in Ho, Hn.
    destruct (open_Ok _ _ _ _ _ Hopen) as (_ & _ & _ & _ & _ & _ & _ & Hc).
    split; unfold urls_fresh; cbn [fst snd]; rewrite ?Ho, ?Hn, ?Hc;
      [done|lia|intros; by rewrite lookup_empty in *..]. }
  pose proof (cache_ok_getURL _ "textures/hero.webp" _ Hok) as Hok2.
  destruct (getURL "textures/hero.webp" (pkg, w1)) as [[imgURL|e] s2] eqn:Hg1;
    cbn [fst snd] in *.
  2:{ split; [|split]; [| |intros u [=]].
      all: destruct (getURL "audio/bgm.ogg" s2) as [[]]; try done.
      all: intros e' [= <-]; done. }
  pose proof (cache_ok_getURL _ "audio/bgm.ogg" _ Hok2) as Hok3.
  apply getURL_cache_post in Hg1 as Hc1.
  assert (Hc1' : urlCache (fst (snd (getURL "audio/bgm.ogg" s2)))
                 !! "textures/hero.webp" = Some imgURL).
  { change (snd (getURL "audio/bgm.ogg" s2)) with (exec (CallGetURL "audio/bgm.ogg") s2).
    by apply exec_cache_kept. }
  destruct (getURL "audio/bgm.ogg" s2) as [[audioURL|e] s3] eqn:Hg2;
    cbn [fst snd page_world set_page_world console_log show_media
         console body_images play_calls] in *.
  - split; [done|]. split; [intros e [=]|]. intros u [= <-].
    split; [intros e [=]|]. intros a [= <-].
    split; [done|]. split; [done|]. split; [done|].
    apply getURL_cache_post in Hg2 as Hc2.
    split.
    + destruct (cache_live _ _ Hok3 _ _ Hc1') as (blob & -> & _). eauto.
    + destruct (cache_live _ _ Hok3 _ _ Hc2) as (blob & -> & _). eauto.
  - split; [done|]. split; [intros e' [=]|]. intros u [= <-].
    split; [|intros a [=]]. intros e' [= <-].
    split; [done|]. split; [done|].
    destruct (cache_live _ _ Hok3 _ _ Hc1') as (blob & -> & _). eauto.
Qed.

End ExamplePageProperties.

(* ========================================================================= *)
(** * The further properties on the examples                                 *)
(* ========================================================================= *)

Lemma urls_fresh_empty w : objectURLs w = ∅ → urls_fresh w.
Proof. intros H n _. by rewrite H, lookup_empty. Qed.

Lemma cache_ok_empty `{ZstdEngine} (s : PkgState) :
  urlCache (fst s) = ∅ → objectURLs (snd s) = ∅ → cache_ok 0 s.
Proof.
  intros Hc Ho.
  split; [by apply urls_fresh_empty|lia|..]; intros *; by rewrite Hc, lookup_empty.
Qed.

Lemma example_cache_ok : cache_ok 0 example_state.
Proof. by apply cache_ok_empty. Qed.


(** X2 on an engine whose module does not start. *)
Lemma failed_init_poisons_witness :
  fst (@ensureWasm broken_engine None example_world)
  = Throw (Error "wasm module failed to load")
  ∧ ∀ source,
      @open broken_engine source None example_world
      = (Throw (Error "wasm module failed to load"),
         snd (@ensureWasm broken_engine None example_world))
      ∧ ∀ source' url2,
          @open broken_engine source' url2
            (snd (@ensureWasm broken_engine None example_world))
          = (Throw (Error "wasm module failed to load"),
             snd (@ensureWasm broken_engine None example_world)).
Proof.
  assert (H : fst (@ensureWasm broken_engine None example_world)
              = Throw (Error "wasm module failed to load")) by reflexivity.
  split; [exact H|].
  exact (@failed_init_poisons broken_engine None example_world _ H).
Defined.

(** X3 on the archive of the example page. *)
Lemma open_url_as_buffer_witness :
  fst (ensureWasm None (page_world assets_page)) = Ok ()
  ∧ network (page_world assets_page) !! "/assets.zst" = Some (200%nat, assets_archive)
  ∧ response_ok 200 = true
  ∧ let buf := fresh (dom (heap (page_world assets_page))) in
    open (SrcString "/assets.zst") None (page_world assets_page)
    = open (SrcUint8Array buf) None
        (set_heap (<[buf := assets_archive]> (heap (page_world assets_page)))
           (page_world assets_page))
    ∧ heap (page_world assets_page)
      ⊆ heap (snd (open (SrcString "/assets.zst") None (page_world assets_page))).
Proof.
  assert (H1 : fst (ensureWasm None (page_world assets_page)) = Ok ())
    by reflexivity.
  assert (H2 : network (page_world assets_page) !! "/assets.zst"
               = Some (200%nat, assets_archive)) by reflexivity.
  assert (H3 : response_ok 200 = true) by reflexivity.
  split; [exact H1|]. split; [exact H2|]. split; [exact H3|].
  exact (open_url_as_buffer "/assets.zst" None (page_world assets_page)
           200%nat assets_archive H1 H2 H3).
Defined.

(** X4 on a server that answers 404. *)
Lemma open_url_rejected_witness :
  fst (ensureWasm None missing_world) = Ok ()
  ∧ (∀ status body, network missing_world !! "/assets.zst" = Some (status, body) →
                    response_ok status = false)
  ∧ open (SrcString "/assets.zst") None missing_world
    = (Throw (match network missing_world !! "/assets.zst" with
              | Some (status, _) =>
                  Error ("Failed to fetch " +:+ "/assets.zst" +:+ ": "
                         +:+ pretty status)
              | None => TypeError "Failed to fetch"
              end),
       snd (ensureWasm None missing_world))
  ∧ heap (snd (open (SrcString "/assets.zst") None missing_world))
    = heap missing_world.
Proof.
  assert (H1 : fst (ensureWasm None missing_world) = Ok ()) by reflexivity.
  assert (H2 : ∀ status body,
             network missing_world !! "/assets.zst" = Some (status, body) →
             response_ok status = false).
  { intros status body H. vm_compute in H. injection H as <- <-. reflexivity. }
  split; [exact H1|]. split; [exact H2|].
  exact (open_url_rejected "/assets.zst" None missing_world H1 H2).
Defined.

(** X6 on the example: the first URL of a.bin. *)
Lemma getURL_creates_witness :
  urlCache example_package !! "a.bin" = None
  ∧ "a.bin" ∈ fileIndex example_package
  ∧ extract_file "a.bin" (reader example_package)
    = (Ok [x01; x02; x03], example_reader)
  ∧ let w := snd example_state in
    let url := blob_url (urlsCreated w) in
    fst (getURL "a.bin" (example_package, w)) = Ok url
    ∧ urlCache (fst (snd (getURL "a.bin" (example_package, w))))
      = <["a.bin" := url]> (urlCache example_package)
    ∧ objectURLs (snd (snd (getURL "a.bin" (example_package, w))))
      = <[url := new_Blob [x01; x02; x03] (mimeFromPath "a.bin")]> (objectURLs w)
    ∧ urlsCreated (snd (snd (getURL "a.bin" (example_package, w))))
      = S (urlsCreated w)
    ∧ reader (fst (snd (getURL "a.bin" (example_package, w)))) = example_reader
    ∧ fileIndex (fst (snd (getURL "a.bin" (example_package, w))))
      = fileIndex example_package.
Proof.
  assert (H1 : urlCache example_package !! "a.bin" = None) by reflexivity.
  assert (H2 : "a.bin" ∈ fileIndex example_package).
  { apply (proj1 (bool_decide_eq_true _)). vm_compute. reflexivity. }
  assert (H3 : extract_file "a.bin" (reader example_package)
               = (Ok [x01; x02; x03], example_reader)) by reflexivity.
  split; [exact H1|]. split; [exact H2|]. split; [exact H3|].
  exact (getURL_creates "a.bin" example_package (snd example_state)
           [x01; x02; x03] example_reader H1 H2 H3).
Defined.

(** X7 on the example: c.bin is not in the archive. *)
Lemma missing_path_leaves_no_trace_witness :
  cache_ok 0 example_state
  ∧ ("c.bin" ∉ fileIndex (fst example_state))
  ∧ getBlob "c.bin" example_state = (Throw (path_not_found "c.bin"), example_state)
  ∧ getText "c.bin" example_state = (Throw (path_not_found "c.bin"), example_state)
  ∧ getURL "c.bin" example_state = (Throw (path_not_found "c.bin"), example_state).
Proof.
  assert (H2 : "c.bin" ∉ fileIndex (fst example_state)).
  { apply (proj1 (bool_decide_eq_false _)). vm_compute. reflexivity. }
  split; [exact example_cache_ok|]. split; [exact H2|].
  exact (missing_path_leaves_no_trace 0 "c.bin" example_state example_cache_ok H2).
Defined.

(** X8 on the example archive. *)
Lemma open_cache_ok_witness :
  open (SrcUint8Array 0) None example_world = (Ok example_package, snd example_state)
  ∧ urls_fresh example_world
  ∧ cache_ok (urlsCreated example_world) (run example_method_calls example_state).
Proof.
  assert (H1 : open (SrcUint8Array 0) None example_world
               = (Ok example_package, snd example_state)) by reflexivity.
  assert (H2 : urls_fresh example_world) by (by apply urls_fresh_empty).
  split; [exact H1|]. split; [exact H2|].
  exact (open_cache_ok (SrcUint8Array 0) None example_world example_package
           (snd example_state) example_method_calls H1 H2).
Defined.


(** X12 on the example. *)
Lemma methods_keep_buffers_witness :
  forallb is_method example_method_calls = true
  ∧ heap (snd example_state) ⊆ heap (snd (run example_method_calls example_state)).
Proof.
  assert (H : forallb is_method example_method_calls = true) by reflexivity.
  split; [exact H|].
  exact (methods_keep_buffers example_method_calls example_state H).
Defined.

(** X13 on textures/hero.WebP. *)
Lemma extension_last_segment_witness :
  dot_free "WebP" = true
  ∧ extension ("textures/hero" +:+ "." +:+ "WebP") = toLowerCase "WebP"
  ∧ extension "WebP" = toLowerCase "WebP"
  ∧ mimeFromPath ("textures/hero" +:+ "." +:+ "WebP") = mimeFromPath "WebP".
Proof.
  assert (H : dot_free "WebP" = true) by reflexivity.
  split; [exact H|]. exact (extension_last_segment "textures/hero" "WebP" H).
Defined.

(** X16 on the page that serves the assets archive. *)
Lemma example_main_shows_media_witness :
  open (SrcString "/assets.zst") None (page_world assets_page)
  = (Ok assets_package, snd (open (SrcString "/assets.zst") None (page_world assets_page)))
  ∧ "textures/hero.webp" ∈ fileIndex assets_package
  ∧ "audio/bgm.ogg" ∈ fileIndex assets_package
  ∧ extract_file "textures/hero.webp" (reader assets_package)
    = (Ok [x52; x49; x46; x46], assets_reader)
  ∧ extract_file "audio/bgm.ogg" assets_reader
    = (Ok [x4f; x67; x67; x53], assets_reader)
  ∧ fst (example_main assets_page) = autoplay assets_page
  ∧ console (snd (example_main assets_page))
    = console assets_page ++ [fileIndex assets_package]
  ∧ body_images (snd (example_main assets_page))
    = body_images assets_page ++ [blob_url (urlsCreated (page_world assets_page))]
  ∧ play_calls (snd (example_main assets_page))
    = play_calls assets_page
      ++ [{| audio_src := blob_url (S (urlsCreated (page_world assets_page)));
             audio_loop := true |}]
  ∧ objectURLs (page_world (snd (example_main assets_page)))
      !! blob_url (urlsCreated (page_world assets_page))
    = Some {| blob_bytes := [x52; x49; x46; x46]; blob_type := "image/webp" |}
  ∧ objectURLs (page_world (snd (example_main assets_page)))
      !! blob_url (S (urlsCreated (page_world assets_page)))
    = Some {| blob_bytes := [x4f; x67; x67; x53]; blob_type := "audio/ogg" |}.
Proof.
  assert (H1 : open (SrcString "/assets.zst") None (page_world assets_page)
               = (Ok assets_package,
                  snd (open (SrcString "/assets.zst") None (page_world assets_page))))
    by reflexivity.
  assert (H2 : "textures/hero.webp" ∈ fileIndex assets_package).
  { apply (proj1 (bool_decide_eq_true _)). vm_compute. reflexivity. }
  assert (H3 : "audio/bgm.ogg" ∈ fileIndex assets_package).
  { apply (proj1 (bool_decide_eq_true _)). vm_compute. reflexivity. }
  assert (H4 : extract_file "textures/hero.webp" (reader assets_package)
               = (Ok [x52; x49; x46; x46], assets_reader)) by reflexivity.
  assert (H5 : extract_file "audio/bgm.ogg" assets_reader
               = (Ok [x4f; x67; x67; x53], assets_reader)) by reflexivity.
  split; [exact H1|]. split; [exact H2|]. split; [exact H3|].
  split; [exact H4|]. split; [exact H5|].
  exact (example_main_shows_media assets_page assets_package _ _ _ _ _
           H1 H2 H3 H4 H5).
Defined.

(** X14 on a path written in capitals. *)
Lemma mimeFromPath_ignores_case_witness :
  ascii_only "TEXTURES/Hero.WebP" = true
  ∧ mimeFromPath (toLowerCase "TEXTURES/Hero.WebP") = mimeFromPath "TEXTURES/Hero.WebP"
  ∧ ∀ q, ascii_only q = true →
         toLowerCase q = toLowerCase "TEXTURES/Hero.WebP" →
         mimeFromPath q = mimeFromPath "TEXTURES/Hero.WebP".
Proof.
  assert (H : ascii_only "TEXTURES/Hero.WebP" = true) by reflexivity.
  split; [exact H|]. exact (mimeFromPath_ignores_case "TEXTURES/Hero.WebP" H).
Defined.

(** X17 on the page that serves the assets archive. *)
Lemma example_main_all_or_nothing_witness :
  urls_fresh (page_world assets_page)
  ∧ let opened := open (SrcString "/assets.zst") None (page_world assets_page) in
    let out := example_main assets_page in
    (∀ e, fst opened = Throw e →
       fst out = Throw e ∧ console (snd out) = console assets_page
       ∧ nothing_shown assets_page (snd out))
    ∧ (∀ pkg, fst opened = Ok pkg →
       let image := getURL "textures/hero.webp" (pkg, snd opened) in
       console (snd out) = console assets_page ++ [fileIndex pkg]
       ∧ (∀ e, fst image = Throw e →
            fst out = Throw e ∧ nothing_shown assets_page (snd out))
       ∧ (∀ imgURL, fst image = Ok imgURL →
            let sound := getURL "audio/bgm.ogg" (snd image) in
            (∀ e, fst sound = Throw e →
               fst out = Throw e ∧ nothing_shown assets_page (snd out)
               ∧ is_Some (objectURLs (page_world (snd out)) !! imgURL))
            ∧ (∀ audioURL, fst sound = Ok audioURL →
               fst out = autoplay assets_page
               ∧ body_images (snd out) = body_images assets_page ++ [imgURL]
               ∧ play_calls (snd out)
                 = play_calls assets_page
                   ++ [{| audio_src := audioURL; audio_loop := true |}]
               ∧ is_Some (objectURLs (page_world (snd out)) !! imgURL)
               ∧ is_Some (objectURLs (page_world (snd out)) !! audioURL)))).
Proof.
  assert (H : urls_fresh (page_world assets_page)) by (by apply urls_fresh_empty).
  split; [exact H|]. exact (example_main_all_or_nothing assets_page H).
Defined.

(** The example page against a server that answers 404: the script rejects
    with the fetch error and the page stays empty. *)
Example example_main_not_found :
  @example_main (@spec_engine stored_format)
    {| page_world := missing_world; console := []; body_images := [];
       play_calls := []; autoplay := Ok () |}
  = (Throw (Error "Failed to fetch /assets.zst: 404"),
     {| page_world := set_wasmInit (Some (Ok ())) missing_world; console := [];
        body_images := []; play_calls := []; autoplay := Ok () |}).
Proof. reflexivity. Qed.
